(** * HalphaImaging: the zero-point tool (getzp.py) and the cutout tool
      (plot_cutouts_ha.py)

    A shallow embedding of the two scripts and the properties their
    specification states about them.

    Conventions of the embedding.
    - Python floats are idealised as rationals ([Q]): there is no NaN, no
      infinity and no rounding error.  Constants are written as in the
      source ([1.48], [1.e-3] as [0.001], ...).
    - numpy arrays are lists; a boolean mask is a [list bool].
    - Python raises and [sys.exit] are results of a state-and-exception
      monad: the state (the object [self], the disk, the call log) survives
      an exception, as the mutated Python objects do.
    - scipy, astropy, Source Extractor, VizieR and the image servers are
      interfaces (type classes); every theorem holds for all their
      implementations. *)

From Stdlib Require Import QArith Qabs Qround ZArith List Bool String Ascii Lia Lqa.
From stdpp Require Import gmap strings list fin_maps pretty.

Open Scope Q_scope.

(** ** Results, exceptions and the state monad *)

Inductive exn : Type :=
| SystemExit
| PyError (name : string).

Inductive res (A : Type) : Type :=
| Ret (a : A)
| Exc (e : exn).
Arguments Ret {A} a.
Arguments Exc {A} e.

Definition M (St A : Type) : Type := St -> res A * St.

Definition ret {St A} (a : A) : M St A := fun s => (Ret a, s).

Definition bind {St A B} (m : M St A) (k : A -> M St B) : M St B :=
  fun s => match m s with
           | (Ret a, s') => k a s'
           | (Exc e, s') => (Exc e, s')
           end.

Definition raise {St A} (e : exn) : M St A := fun s => (Exc e, s).
Definition get {St} : M St St := fun s => (Ret s, s).
Definition modify {St} (f : St -> St) : M St unit := fun s => (Ret tt, f s).

(** [x = o] where [o] may raise [name]. *)
Definition lift_opt {St A} (name : string) (o : option A) : M St A :=
  match o with
  | Some a => ret a
  | None => raise (PyError name)
  end.

(** [m] leaves the part [proj] of the state as it is. *)
Definition keeps {St A L} (proj : St -> L) (m : M St A) : Prop :=
  forall s r s', m s = (r, s') -> proj s' = proj s.

Declare Scope py_scope.
Delimit Scope py_scope with py.
Notation "x <- m ;; k" := (bind m (fun x => k))
  (at level 100, m at next level, right associativity) : py_scope.
Notation "m ;;; k" := (bind m (fun _ => k))
  (at level 100, right associativity) : py_scope.

(** ** numpy on lists *)

Module np.

Definition Qltb (a b : Q) : bool := negb (Qle_bool b a).

(** [a[mask]] for a boolean mask of the length of [a]. *)
Fixpoint compress {A} (mask : list bool) (a : list A) : list A :=
  match mask, a with
  | b :: mask', v :: a' =>
      if b then v :: compress mask' a' else compress mask' a'
  | _, _ => []
  end.

(** [sum(flag)] of a boolean array: the number of [True]. *)
Fixpoint sum_flag (flag : list bool) : nat :=
  match flag with
  | [] => 0
  | b :: flag' => (if b then 1 else 0) + sum_flag flag'
  end.

(** [a[mask] = vals]; numpy raises unless [mask] has the length of [a]
    and [vals] one value per [True]. *)
Fixpoint mask_assign {A} (a : list A) (mask : list bool) (vals : list A)
  : option (list A) :=
  match a, mask with
  | [], [] => match vals with [] => Some [] | _ :: _ => None end
  | v :: a', b :: mask' =>
      if b then
        match vals with
        | w :: vals' => cons w <$> mask_assign a' mask' vals'
        | [] => None
        end
      else cons v <$> mask_assign a' mask' vals
  | _, _ => None
  end.

(** [a[idx]] for an integer index array; [None] is IndexError. *)
Definition take {A} (a : list A) (idx : list nat) : option (list A) :=
  mapM (fun i => a !! i) idx.

(** [a & b] *)
Definition and_ (a b : list bool) : list bool := zip_with andb a b.

Definition sum (a : list Q) : Q := foldr Qplus 0 a.

(** [np.mean(a) == 0]; the mean of an empty array is nan, which is not 0. *)
Definition mean_is_zero (a : list Q) : bool :=
  match a with
  | [] => false
  | _ :: _ => Qeq_bool (sum a / inject_Z (Z.of_nat (length a))) 0
  end.

Fixpoint insert_sorted (v : Q) (s : list Q) : list Q :=
  match s with
  | [] => [v]
  | w :: s' => if Qle_bool v w then v :: s else w :: insert_sorted v s'
  end.

Definition sort (a : list Q) : list Q := foldr insert_sorted [] a.

(** [np.median]: the middle of the sorted array, the mean of the two
    middle values when the length is even.  (On an empty array numpy
    gives nan; here 0, and the fit loop then leaves through the same
    branch, since no point passes the clip.) *)
Definition median (a : list Q) : Q :=
  let s := sort a in
  let n := length s in
  if Nat.even n
  then (nth (n / 2 - 1) s 0 + nth (n / 2) s 0) / 2
  else nth (n / 2) s 0.

(** [np.polyval(c, x)]: highest power first (Horner). *)
Definition polyval1 (c : list Q) (x : Q) : Q :=
  fold_left (fun acc ci => acc * x + ci) c 0.
Definition polyval (c : list Q) (x : list Q) : list Q :=
  map (polyval1 c) x.

(** [a - b] elementwise *)
Definition sub (a b : list Q) : list Q := zip_with Qminus a b.

End np.

(** ** FITS files on disk *)

Inductive hval : Type :=
| HFloat (v : Q)
| HInt (v : Z)
| HStr (v : string).

(** An image file: one header (keyword to value) and one data array, which
    [fits.getdata] gives as rows; [None] is a header-only HDU.  A file that
    is not FITS (a jpeg, an error page) is [RawFile]. *)
Inductive file : Type :=
| FitsFile (data : option (list (list Q))) (header : gmap string hval)
| RawFile (bytes : string).

(** [float(v)] of a header value *)
Definition float_of_hval (v : hval) : option Q :=
  match v with
  | HFloat q => Some q
  | HInt z => Some (inject_Z z)
  | HStr _ => None
  end.

(** [fits.getdata(name, header=True)] *)
Definition fits_getdata {St} (disk : gmap string file) (name : string)
  : M St (list (list Q) * gmap string hval) :=
  match disk !! name with
  | None => raise (PyError "FileNotFoundError")
  | Some (RawFile _) => raise (PyError "OSError")
  | Some (FitsFile None _) => raise (PyError "IndexError")
  | Some (FitsFile (Some im) header) => ret (im, header)
  end.

(** [fits.getheader(name)] *)
Definition fits_getheader {St} (disk : gmap string file) (name : string)
  : M St (gmap string hval) :=
  match disk !! name with
  | None => raise (PyError "FileNotFoundError")
  | Some (RawFile _) => raise (PyError "OSError")
  | Some (FitsFile _ header) => ret header
  end.

(** ['{:.3f}'.format(v)] read back with [float]: the nearest multiple of
    1/1000, ties to the even one. *)
Definition round_half_even (q : Q) : Z :=
  let f := Qfloor q in
  let r := q - inject_Z f in
  if np.Qltb r 0.5 then f
  else if np.Qltb 0.5 r then (f + 1)%Z
  else if Z.even f then f else (f + 1)%Z.

Definition format_3f (v : Q) : Q := round_half_even (v * 1000) # 1000.

(** ** getzp.py *)

Module getzp.

(** zpfunc = lambda x, zp: x + zp *)
Definition zpfunc (x zp : Q) : Q := x + zp.
(** zpfuncwithslope = lambda x, m, zp: m*x + zp *)
Definition zpfuncwithslope (x m zp : Q) : Q := m * x + zp.

Definition pixelscale : Q := 0.43.

(** A row of the Source Extractor catalog (the columns the script reads). *)
Record se_row := {
  ALPHA_J2000 : Q; DELTA_J2000 : Q;
  X_IMAGE : Q; Y_IMAGE : Q;
  FLAGS : Z; CLASS_STAR : Q; FWHM_IMAGE : Q;
  MAG_AUTO : Q; MAGERR_AUTO : Q;
  MAG_BEST : Q; MAGERR_BEST : Q;
  MAG_PETRO : Q; MAGERR_PETRO : Q;
  MAG_APER : list Q; MAGERR_APER : list Q
}.

(** A record of [np.zeros(n, dtype=secat.dtype)]: every field zero, the
    aperture vectors as long as the catalog's. *)
Definition zero_row (like : se_row) : se_row := {|
  ALPHA_J2000 := 0; DELTA_J2000 := 0; X_IMAGE := 0; Y_IMAGE := 0;
  FLAGS := 0; CLASS_STAR := 0; FWHM_IMAGE := 0;
  MAG_AUTO := 0; MAGERR_AUTO := 0; MAG_BEST := 0; MAGERR_BEST := 0;
  MAG_PETRO := 0; MAGERR_PETRO := 0;
  MAG_APER := map (fun _ => 0) (MAG_APER like);
  MAGERR_APER := map (fun _ => 0) (MAGERR_APER like)
|}.

(** The record of an empty catalog, whose aperture count is not known here
    (the cross-match raises on an empty catalog before it is needed). *)
Definition blank_row : se_row :=
  Build_se_row 0 0 0 0 0 0 0 0 0 0 0 0 0 [] [].
(** [np.zeros(n, dtype=secat.dtype)] *)
Definition np_zeros (n : nat) (secat : list se_row) : list se_row :=
  replicate n (zero_row (hd blank_row secat)).

(** A row of the Pan-STARRS table. *)
Record pan_row := {
  RAJ2000 : Q; DEJ2000 : Q; Qual : Z;
  gmag : Q; rmag : Q; e_rmag : Q; imag : Q
}.

(** [t = curve_fit(...)]: [t[0][0]] and [t[1][0][0]] for a one-parameter
    model. *)
Record fit_result := { popt : Q; pcov : Q }.

(** scipy and numpy fitting routines; [None] when they raise. *)
Class Scipy := {
  curve_fit : (Q -> Q -> Q) -> list Q -> list Q -> list Q -> option fit_result;
  polyfit1 : list Q -> list Q -> option (list Q)
}.

(** astropy coordinates, Source Extractor and VizieR. *)
Class Sky := {
  (** angular separation in degrees of two (ra, dec) positions *)
  separation : Q * Q -> Q * Q -> Q;
  (** the catalog [sex] writes for an image, a saturation level and an
      optional seeing FWHM *)
  sextractor : string -> Q -> option Q -> option (list se_row);
  (** [panstarrs_query(ra, dec, rad)] *)
  panstarrs_query : Q -> Q -> Q -> option (list pan_row)
}.

(** The attributes of a [getzp] object, grouped by the method that
    assigns them.  An attribute not assigned yet is the empty array or 0. *)
Record config := {
  image : string; astrodir : string; instrument : string;
  filter : string; nsigma : Q; useri : bool; naper : nat; mag : Z;
  (** the command-line option [args.fwhm], a global of the script *)
  args_fwhm : option Q
}.
Record se_attrs := {
  keepsection : list Q; secat : list se_row;
  centerRA : Q; centerDEC : Q; radius : Q
}.
Record match_attrs := {
  matchflag : list bool; matchedarray1 : list se_row;
  fitflag : list bool; goodarea_flag : list bool; R : list Q
}.
Record fit_attrs := {
  bestc : list Q;
  self_x : list Q; self_y : list Q; self_yerr : list Q;
  residual : list Q;
  zpcovar : Q; zp : Q
}.
Record obj := {
  cfg : config; se : se_attrs; pan : list pan_row;
  mt : match_attrs; fit : fit_attrs
}.

Definition with_se (v : se_attrs) (o : obj) : obj :=
  {| cfg := cfg o; se := v; pan := pan o; mt := mt o; fit := fit o |}.
Definition with_pan (v : list pan_row) (o : obj) : obj :=
  {| cfg := cfg o; se := se o; pan := v; mt := mt o; fit := fit o |}.
Definition with_mt (v : match_attrs) (o : obj) : obj :=
  {| cfg := cfg o; se := se o; pan := pan o; mt := v; fit := fit o |}.
Definition with_fit (v : fit_attrs) (o : obj) : obj :=
  {| cfg := cfg o; se := se o; pan := pan o; mt := mt o; fit := v |}.

(** self.bestc = c *)
Definition set_bestc (c : list Q) (o : obj) : obj :=
  with_fit {| bestc := c; self_x := self_x (fit o); self_y := self_y (fit o);
              self_yerr := self_yerr (fit o); residual := residual (fit o);
              zpcovar := zpcovar (fit o); zp := zp (fit o) |} o.
(** self.x = x; self.y = y; self.residual = residual *)
Definition set_x_y_residual (x y r : list Q) (o : obj) : obj :=
  with_fit {| bestc := bestc (fit o); self_x := x; self_y := y;
              self_yerr := self_yerr (fit o); residual := r;
              zpcovar := zpcovar (fit o); zp := zp (fit o) |} o.
(** self.x = x; self.y = y; self.yerr = yerr; self.zpcovar = t[1];
    self.zp = self.bestc[1] *)
Definition set_fit_final (x y yerr : list Q) (cov zp0 : Q) (o : obj) : obj :=
  with_fit {| bestc := bestc (fit o); self_x := x; self_y := y;
              self_yerr := yerr; residual := residual (fit o);
              zpcovar := cov; zp := zp0 |} o.

(** The local variables of [fitzp] that live across iterations. *)
Record locals := {
  delta : Q; x : list Q; y : list Q; yerr : list Q;
  t : option fit_result
}.

(** The three data arrays of the fit have one entry per star. *)
Definition aligned (l : locals) : Prop :=
  length (x l) = length (y l) /\ length (y l) = length (yerr l).

(** The clip in the words of the specification: a point is kept when its
    residual lies less than [nsigma] MADs from the median residual. *)
Definition spec_MAD (r : list Q) : Q :=
  1.48 * np.median (map (fun v => Qabs (v - np.median r)) r).
Definition within_clip (nsigma : Q) (r : list Q) (ri : Q) : Prop :=
  Qabs (ri - np.median r) < nsigma * spec_MAD r.

#[export] Instance within_clip_dec nsigma r ri : Decision (within_clip nsigma r ri).
Proof.
  unfold within_clip.
  destruct (Qlt_le_dec (Qabs (ri - np.median r)) (nsigma * spec_MAD r)) as [Hlt|Hle].
  - left; exact Hlt.
  - right; apply Qle_not_lt; exact Hle.
Defined.

Section fitzp.
Context `{Scipy}.

(** [abs(residual - np.median(residual))] *)
Definition abs_dev (residual : list Q) : list Q :=
  map (fun r => Qabs (r - np.median residual)) residual.

(** [MAD = 1.48*np.median(abs(residual - np.median(residual)))] *)
Definition MAD (residual : list Q) : Q := 1.48 * np.median (abs_dev residual).

(** [flag = (abs(residual - np.median(residual)) < self.nsigma*MAD)] *)
Definition clip_flag (nsigma : Q) (residual : list Q) : list bool :=
  map (fun d => np.Qltb d (nsigma * MAD residual)) (abs_dev residual).

(** [residual = (yfit - y)] with [yfit = np.polyval(c, x)] *)
Definition fit_residual (c x y : list Q) : list Q :=
  np.sub (np.polyval c x) y.

(** One pass through the body of [while delta > 1.e-3]. *)
Definition loop_body (l : locals) : M obj locals :=
  (self <- get;;
   t <- lift_opt "curve_fit" (curve_fit zpfunc (x l) (y l) (yerr l));;
   let c := [1; popt t] in
   let residual := fit_residual c (x l) (y l) in
   b1 <- lift_opt "IndexError" (bestc (fit self) !! 1%nat);;
   c1 <- lift_opt "IndexError" (c !! 1%nat);;
   let delta := Qabs (b1 - c1) in
   modify (set_bestc c);;;
   let flag := clip_flag (nsigma (cfg self)) residual in
   if (np.sum_flag flag <? 2)%nat then
     modify (set_x_y_residual (x l) (y l) residual);;;
     raise SystemExit
   else
     modify (set_x_y_residual (x l) (y l) residual);;;
     ret {| delta := delta;
            x := np.compress flag (x l);
            y := np.compress flag (y l);
            yerr := np.compress flag (yerr l);
            t := Some t |})%py.

(** The state and the locals one pass leaves, when [curve_fit] returns. *)
Definition pass_residual (fr : fit_result) (l : locals) : list Q :=
  fit_residual [1; popt fr] (x l) (y l).
Definition pass_flag (fr : fit_result) (l : locals) (self : obj) : list bool :=
  clip_flag (nsigma (cfg self)) (pass_residual fr l).
Definition pass_self (fr : fit_result) (l : locals) (self : obj) : obj :=
  set_x_y_residual (x l) (y l) (pass_residual fr l) (set_bestc [1; popt fr] self).
Definition pass_locals (fr : fit_result) (b1 : Q) (l : locals) (self : obj) : locals :=
  {| delta := Qabs (b1 - popt fr);
     x := np.compress (pass_flag fr l self) (x l);
     y := np.compress (pass_flag fr l self) (y l);
     yerr := np.compress (pass_flag fr l self) (yerr l);
     t := Some fr |}.

(** [passes k l s l' s']: started with locals [l] on object [s], the loop
    runs [k] passes and stands at [l'], [s'] before its next test. *)
Inductive passes : nat -> locals -> obj -> locals -> obj -> Prop :=
| passes_0 l s : passes 0 l s l s
| passes_S k l s l1 s1 l' s' :
    np.Qltb 0.001 (delta l) = true ->
    loop_body l s = (Ret l1, s1) ->
    passes k l1 s1 l' s' ->
    passes (S k) l s l' s'.

(** [runs l s k r]: started with locals [l] on object [s], the loop
    executes [k] passes and ends with [r], the locals it leaves the loop
    with or the exception a pass raised. *)
Inductive runs : locals -> obj -> nat -> res locals * obj -> Prop :=
| runs_done l s :
    np.Qltb 0.001 (delta l) = false -> runs l s 0 (Ret l, s)
| runs_raise l s e s' :
    np.Qltb 0.001 (delta l) = true ->
    loop_body l s = (Exc e, s') -> runs l s 1 (Exc e, s')
| runs_pass l s l1 s1 k r :
    np.Qltb 0.001 (delta l) = true ->
    loop_body l s = (Ret l1, s1) ->
    runs l1 s1 k r -> runs l s (S k) r.

(** [while delta > 1.e-3: body]; [None] when the fuel runs out first. *)
Fixpoint fit_loop (fuel : nat) (l : locals) (self : obj)
  : option (res locals * obj) :=
  if np.Qltb 0.001 (delta l) then
    match fuel with
    | O => None
    | S fuel' =>
        match loop_body l self with
        | (Ret l', self') => fit_loop fuel' l' self'
        | (Exc e, self') => Some (Exc e, self')
        end
    end
  else Some (Ret l, self).

(** [MAG_APER[:, naper]]; [None] is IndexError. *)
Definition aper_column (col : se_row -> list Q) (naper : nat)
                       (a : list se_row) : option (list Q) :=
  mapM (fun r => col r !! naper) a.

(** The lines of [fitzp] before the loop: the first-degree [polyfit]
    (used by the plots only), [self.bestc], [delta] and the data
    selected by [self.mag]. *)
Definition fitzp_setup : M obj locals :=
  (self <- get;;
   let flag := fitflag (mt self) in
   _ <- lift_opt "polyfit"
          (polyfit1 (np.compress flag (map rmag (pan self)))
                    (np.compress flag (map MAG_AUTO (matchedarray1 (mt self)))));;
   modify (set_bestc [0; 0]);;;
   let x := np.compress flag (R (mt self)) in
   if (mag (cfg self) =? 0)%Z then
     ya <- lift_opt "IndexError"
             (aper_column MAG_APER (naper (cfg self)) (matchedarray1 (mt self)));;
     ea <- lift_opt "IndexError"
             (aper_column MAGERR_APER (naper (cfg self)) (matchedarray1 (mt self)));;
     ret {| delta := 100; x := x; y := np.compress flag ya;
            yerr := np.compress flag ea; t := None |}
   else if (mag (cfg self) =? 1)%Z then
     ret {| delta := 100; x := x;
            y := np.compress flag (map MAG_BEST (matchedarray1 (mt self)));
            yerr := np.compress flag (map MAGERR_BEST (matchedarray1 (mt self)));
            t := None |}
   else if (mag (cfg self) =? 2)%Z then
     ret {| delta := 100; x := x;
            y := np.compress flag (map MAG_PETRO (matchedarray1 (mt self)));
            yerr := np.compress flag (map MAGERR_PETRO (matchedarray1 (mt self)));
            t := None |}
   else raise (PyError "UnboundLocalError"))%py.

(** The lines of [fitzp] after the loop.  The figures are not modelled,
    but the column [MAG_APER[:, naper]] they read is; [self.zperr], a square
    root, is left out. *)
Definition fitzp_finish (l : locals) : M obj unit :=
  (self <- get;;
   _ <- lift_opt "IndexError"
          (aper_column MAG_APER (naper (cfg self)) (matchedarray1 (mt self)));;
   t <- lift_opt "UnboundLocalError" (t l);;
   z <- lift_opt "IndexError" (bestc (fit self) !! 1%nat);;
   modify (set_fit_final (x l) (y l) (yerr l) (pcov t) z))%py.

Definition fitzp (fuel : nat) (self : obj) : option (res unit * obj) :=
  match fitzp_setup self with
  | (Exc e, self1) => Some (Exc e, self1)
  | (Ret l0, self1) =>
      match fit_loop fuel l0 self1 with
      | None => None
      | Some (Exc e, self2) => Some (Exc e, self2)
      | Some (Ret l, self2) => Some (fitzp_finish l self2)
      end
  end.

End fitzp.

(** *** The object in its world: the disk and the log of method calls *)

Record world := {
  w_self : obj;
  w_disk : gmap string file;
  w_calls : list string
}.

Definition set_self (o : obj) (w : world) : world :=
  {| w_self := o; w_disk := w_disk w; w_calls := w_calls w |}.
Definition set_disk (d : gmap string file) (w : world) : world :=
  {| w_self := w_self w; w_disk := d; w_calls := w_calls w |}.
Definition log_call (name : string) (w : world) : world :=
  {| w_self := w_self w; w_disk := w_disk w; w_calls := w_calls w ++ [name] |}.

(** A method that touches the object only. *)
Definition on_self {A} (m : M obj A) : M world A :=
  fun w => let (r, o) := m (w_self w) in (r, set_self o w).

(** A method call, entered in the log. *)
Definition call {A} (name : string) (m : M world A) : M world A :=
  (modify (log_call name);;; m)%py.

(** [min(a)] and [max(a)] of Python; ValueError on an empty array. *)
Definition py_min (a : list Q) : option Q :=
  match a with
  | [] => None
  | v :: a' => Some (foldr (fun u m => if Qle_bool u m then u else m) v a')
  end.
Definition py_max (a : list Q) : option Q :=
  match a with
  | [] => None
  | v :: a' => Some (foldr (fun u m => if Qle_bool m u then u else m) v a')
  end.

Section pipeline.
Context `{Scipy} `{Sky}.

(** [getzp.__init__] with [norm_exptime = False] first writes the image
    divided by its exposure time to ['n'+image].  (For EXPTIME = 0 numpy
    divides to inf and nan, with a warning; the rationals have neither, and
    the model stops there with an error of its own.) *)
Definition __init__ (c : config) (norm_exptime : bool) : M world unit :=
  (w <- get;;
   let fresh (c : config) : obj :=
     {| cfg := c;
        se := {| keepsection := []; secat := []; centerRA := 0;
                 centerDEC := 0; radius := 0 |};
        pan := [];
        mt := {| matchflag := []; matchedarray1 := []; fitflag := [];
                 goodarea_flag := []; R := [] |};
        fit := {| bestc := []; self_x := []; self_y := []; self_yerr := [];
                  residual := []; zpcovar := 0; zp := 0 |} |} in
   if norm_exptime then modify (set_self (fresh c))
   else
     imh <- fits_getdata (w_disk w) (image c);;
     e <- lift_opt "KeyError" (snd imh !! "EXPTIME");;
     exptime <- lift_opt "ValueError" (float_of_hval e);;
     if Qeq_bool exptime 0 then raise (PyError "inf")
     else
       let norm_im := map (map (fun v => v / exptime)) (fst imh) in
       let name := "n" +:+ image c in
       modify (set_disk (<[name := FitsFile (Some norm_im) (snd imh)]> (w_disk w)));;;
       modify (set_self (fresh
         {| image := name; astrodir := astrodir c; instrument := instrument c;
            filter := filter c; nsigma := nsigma c; useri := useri c;
            naper := naper c; mag := mag c; args_fwhm := args_fwhm c |})))%py.

(** [runse]: Source Extractor is run on the image (twice when no FWHM is
    given, the second time with the median FWHM of the first catalog), and
    the centre and the width of the field are taken from its catalog. *)
Definition runse : M world unit :=
  (w <- get;;
   let o := w_self w in
   let ins := instrument (cfg o) in
   let keep := if String.eqb ins "i" then [1000; 5000; 0; 4000]
               else keepsection (se o) in
   modify (set_self (with_se
     {| keepsection := keep; secat := secat (se o); centerRA := centerRA (se o);
        centerDEC := centerDEC (se o); radius := radius (se o) |} o));;;
   header <- fits_getheader (w_disk w) (image (cfg o));;
   e <- lift_opt "KeyError" (header !! "EXPTIME");;
   expt <- lift_opt "ValueError" (float_of_hval e);;
   if Qeq_bool expt 0 then raise (PyError "ZeroDivisionError")
   else
     let ADUlimit := 4000000 / expt in
     if negb (String.eqb ins "h" || String.eqb ins "i" || String.eqb ins "m")
     then raise (PyError "UnboundLocalError")
     else
       fwhm <- match args_fwhm (cfg o) with
               | Some f => ret f
               | None =>
                   cat0 <- lift_opt "FileNotFoundError"
                             (sextractor (image (cfg o)) ADUlimit None);;
                   modify (fun w => set_self (with_se
                     {| keepsection := keep; secat := cat0;
                        centerRA := centerRA (se o); centerDEC := centerDEC (se o);
                        radius := radius (se o) |} (w_self w)) w);;;
                   ret (np.median (map FWHM_IMAGE cat0) * pixelscale)
               end;;
       cat <- lift_opt "FileNotFoundError"
                (sextractor (image (cfg o)) ADUlimit (Some fwhm));;
       modify (fun w => set_self (with_se
         {| keepsection := keep; secat := cat;
            centerRA := centerRA (se o); centerDEC := centerDEC (se o);
            radius := radius (se o) |} (w_self w)) w);;;
       minRA <- lift_opt "ValueError" (py_min (map ALPHA_J2000 cat));;
       maxRA <- lift_opt "ValueError" (py_max (map ALPHA_J2000 cat));;
       minDEC <- lift_opt "ValueError" (py_min (map DELTA_J2000 cat));;
       maxDEC <- lift_opt "ValueError" (py_max (map DELTA_J2000 cat));;
       let width := if Qle_bool (maxDEC - minDEC) (maxRA - minRA)
                    then maxRA - minRA else maxDEC - minDEC in
       modify (fun w => set_self (with_se
         {| keepsection := keep; secat := cat;
            centerRA := 0.5 * (minRA + maxRA);
            centerDEC := 0.5 * (minDEC + maxDEC);
            radius := width |} (w_self w)) w))%py.

(** [get_panstarrs] *)
Definition get_panstarrs : M world unit :=
  (w <- get;;
   let o := w_self w in
   p <- lift_opt "ConnectionError"
          (panstarrs_query (centerRA (se o)) (centerDEC (se o)) (radius (se o)));;
   modify (set_self (with_pan p o)))%py.

(** [pancoords.match_to_catalog_sky(secoords)]: for each position the
    index of the nearest catalog entry (the first of equally near ones) and
    its separation; ValueError on an empty catalog. *)
Fixpoint nearest (p : Q * Q) (cat : list (Q * Q)) (i : nat) (best : nat * Q)
  : nat * Q :=
  match cat with
  | [] => best
  | c :: cat' =>
      let d := separation p c in
      if np.Qltb d (snd best) then nearest p cat' (S i) (i, d)
      else nearest p cat' (S i) best
  end.

Definition match_to_catalog_sky (coords cat : list (Q * Q))
  : option (list nat * list Q) :=
  match cat with
  | [] => None
  | c0 :: cat' =>
      let r := map (fun p => nearest p cat' 1%nat (0%nat, separation p c0)) coords in
      Some (map fst r, map snd r)
  end.

(** [self.matchflag & (self.pan['rmag'] > 9.) & (self.matchedarray1['FLAGS'] < 5)
     & (self.pan['Qual'] < 64) & (self.matchedarray1['CLASS_STAR'] > 0.95)] *)
Definition star_flag (matchflag : list bool) (pn : list pan_row)
                     (matched : list se_row) : list bool :=
  np.and_ (np.and_ (np.and_ (np.and_ matchflag
    (map (fun p => np.Qltb 9 (rmag p)) pn))
    (map (fun r => (FLAGS r <? 5)%Z) matched))
    (map (fun p => (Qual p <? 64)%Z) pn))
    (map (fun r => np.Qltb 0.95 (CLASS_STAR r)) matched).

(** The central region kept for the WFC on the INT:
    [keepsection[0] < X_IMAGE < keepsection[1]] and
    [keepsection[2] < Y_IMAGE < keepsection[3]]. *)
Definition goodarea (k0 k1 k2 k3 : Q) (matched : list se_row) : list bool :=
  np.and_ (np.and_ (np.and_
    (map (fun r => np.Qltb k0 (X_IMAGE r)) matched)
    (map (fun r => np.Qltb (X_IMAGE r) k1) matched))
    (map (fun r => np.Qltb k2 (Y_IMAGE r)) matched))
    (map (fun r => np.Qltb (Y_IMAGE r) k3) matched).

(** A record of zeros, as [np.zeros] makes them. *)
Definition is_zero_record (r : se_row) : Prop :=
  ALPHA_J2000 r = 0 /\ DELTA_J2000 r = 0 /\ X_IMAGE r = 0 /\ Y_IMAGE r = 0 /\
  FLAGS r = 0%Z /\ CLASS_STAR r = 0 /\ FWHM_IMAGE r = 0 /\
  MAG_AUTO r = 0 /\ MAGERR_AUTO r = 0 /\ MAG_BEST r = 0 /\ MAGERR_BEST r = 0 /\
  MAG_PETRO r = 0 /\ MAGERR_PETRO r = 0 /\
  Forall (eq 0) (MAG_APER r) /\ Forall (eq 0) (MAGERR_APER r).

(** [match_coords] *)
Definition match_coords : M obj unit :=
  (self <- get;;
   let pn := pan self in
   let sc := secat (se self) in
   let pancoords := map (fun p => (RAJ2000 p, DEJ2000 p)) pn in
   let secoords := map (fun r => (ALPHA_J2000 r, DELTA_J2000 r)) sc in
   m <- lift_opt "ValueError" (match_to_catalog_sky pancoords secoords);;
   let index := fst m in
   let dist2d := snd m in
   let matchflag := map (fun d => np.Qltb d (5 / 3600)) dist2d in
   found <- lift_opt "IndexError" (np.take sc (np.compress matchflag index));;
   let zeros := np_zeros (length pancoords) sc in
   matchedarray1 <- lift_opt "ValueError" (np.mask_assign zeros matchflag found);;
   let fitflag := star_flag matchflag pn matchedarray1 in
   gf <- (if String.eqb (instrument (cfg self)) "i" then
            k0 <- lift_opt "AttributeError" (keepsection (se self) !! 0%nat);;
            k1 <- lift_opt "AttributeError" (keepsection (se self) !! 1%nat);;
            k2 <- lift_opt "AttributeError" (keepsection (se self) !! 2%nat);;
            k3 <- lift_opt "AttributeError" (keepsection (se self) !! 3%nat);;
            let goodarea := goodarea k0 k1 k2 k3 matchedarray1 in
            ret (goodarea, np.and_ fitflag goodarea)
          else ret (goodarea_flag (mt self), fitflag));;
   let Rmag :=
     if String.eqb (filter (cfg self)) "R" then
       if useri (cfg self)
       then map (fun p => rmag p + (-0.166) * (rmag p - imag p) - 0.275) pn
       else map (fun p => rmag p + (-0.142) * (gmag p - rmag p) - 0.142) pn
     else map rmag pn in
   modify (with_mt {| matchflag := matchflag; matchedarray1 := matchedarray1;
                      fitflag := snd gf; goodarea_flag := fst gf; R := Rmag |}))%py.

(** [update_header]: the image is read, the keywords are set in its header
    and the file is written again with the same data. *)
Definition update_header : M world unit :=
  (w <- get;;
   let o := w_self w in
   imh <- fits_getdata (w_disk w) (image (cfg o));;
   let im := fst imh in
   let header := snd imh in
   b1 <- lift_opt "IndexError" (bestc (fit o) !! 1%nat);;
   let header :=
     if String.eqb (filter (cfg o)) "R" then
       <["LAMB(um)" := HFloat 0.6442]>
         (<["PHOTZP" := HFloat (format_3f (-1 * b1 + 0.21))]> header)
     else <["PHOTZP" := HFloat (format_3f (-1 * b1))]> header in
   let header := <["PHOTSYS" := HStr "AB"]> header in
   let header := <["FLUXZPJY" := HFloat 3631]> header in
   modify (set_disk (<[image (cfg o) := FitsFile (Some im) header]> (w_disk w))))%py.

(** [getzp.getzp]: the five stages in a row; [None] when the fit loop runs
    out of fuel. *)
Definition getzp (fuel : nat) (w : world) : option (res unit * world) :=
  match (call "runse" runse;;;
         call "get_panstarrs" get_panstarrs;;;
         call "match_coords" (on_self match_coords))%py w with
  | (Exc e, w1) => Some (Exc e, w1)
  | (Ret _, w1) =>
      let w2 := log_call "fitzp" w1 in
      match fitzp fuel (w_self w2) with
      | None => None
      | Some (Exc e, o) => Some (Exc e, set_self o w2)
      | Some (Ret _, o) => Some (call "update_header" update_header (set_self o w2))
      end
  end.

End pipeline.

(** The stages of [getzp.getzp], in the order of the source. *)
Definition stages : list string :=
  ["runse"; "get_panstarrs"; "match_coords"; "fitzp"; "update_header"].


End getzp.

(** ** plot_cutouts_ha.py *)

Module cutouts.

Definition UNWISE_PIXSCALE : Q := 2.75.
Definition LEGACY_PIXSCALE : Q := 1.

(** [int(v)] of a float: towards zero. *)
Definition py_int (v : Q) : Z :=
  if Qle_bool 0 v then Qfloor v else Qceiling v.

(** [s.find(sub)]: the index of the first occurrence, or -1. *)
Definition find (s sub : string) : Z :=
  match String.index 0 sub s with
  | Some n => Z.of_nat n
  | None => -1
  end.

(** [s.split(sep)[0]]: what stands before the first [sep], all of [s] when
    there is none. *)
Definition split_head (s sep : string) : string :=
  match String.index 0 sep s with
  | Some n => String.substring 0 n s
  | None => s
  end.

(** [sub] occurs in [s]. *)
Definition occurs (sub s : string) : Prop :=
  exists n, String.substring n (String.length sub) s = sub.

(** [str(v)] of a header value that is not a float. *)
Definition str_hval (str_float : Q -> string) (v : hval) : string :=
  match v with
  | HStr s => s
  | HInt z => pretty z
  | HFloat q => str_float q
  end.

(** The attributes of a [cutouts] object, grouped by the method that
    assigns them. *)
Record name_attrs := { r_name : string; rootname : string }.
Record halpha_attrs := {
  r : list (list Q); header : gmap string hval;
  ha : list (list Q); cs : list (list Q)
}.
Record size_attrs := {
  xsize_pix : nat; ysize_pix : nat; pscale : Q;
  xsize_arcsec : Q; ysize_arcsec : Q
}.
Record legacy_attrs := {
  legacy_imsize : Q;
  legacy_filename_g : string; legacy_filename_r : string;
  legacy_filename_z : string; legacy_jpegname : string
}.
Record legacy_images := {
  legacy_g : list (list Q); legacy_r : list (list Q); legacy_z : list (list Q)
}.
Record wise_attrs := {
  wise_band : string; wise_imsize : Q;
  wise_filenames : list string; wise_multiframe_flag : bool;
  wise_images : list (list (list Q))
}.
Record galex_attrs := { nuv_image_name : string; nuv_image : list (list Q) }.
Record obj := {
  names : name_attrs;
  wcs : gmap string hval;
  halpha : halpha_attrs;
  size : size_attrs;
  ra : Q; dec : Q;
  galid : hval;
  legacy : legacy_attrs;
  legacy_im : legacy_images;
  wise : wise_attrs;
  galex : galex_attrs
}.

Definition with_names v (o : obj) : obj :=
  Build_obj v (wcs o) (halpha o) (size o) (ra o) (dec o) (galid o) (legacy o)
            (legacy_im o) (wise o) (galex o).
Definition with_wcs v (o : obj) : obj :=
  Build_obj (names o) v (halpha o) (size o) (ra o) (dec o) (galid o) (legacy o)
            (legacy_im o) (wise o) (galex o).
Definition with_halpha v (o : obj) : obj :=
  Build_obj (names o) (wcs o) v (size o) (ra o) (dec o) (galid o) (legacy o)
            (legacy_im o) (wise o) (galex o).
Definition with_size v (o : obj) : obj :=
  Build_obj (names o) (wcs o) (halpha o) v (ra o) (dec o) (galid o) (legacy o)
            (legacy_im o) (wise o) (galex o).
Definition with_radec (v : Q * Q) (o : obj) : obj :=
  Build_obj (names o) (wcs o) (halpha o) (size o) (fst v) (snd v) (galid o)
            (legacy o) (legacy_im o) (wise o) (galex o).
Definition with_galid v (o : obj) : obj :=
  Build_obj (names o) (wcs o) (halpha o) (size o) (ra o) (dec o) v (legacy o)
            (legacy_im o) (wise o) (galex o).
Definition with_legacy v (o : obj) : obj :=
  Build_obj (names o) (wcs o) (halpha o) (size o) (ra o) (dec o) (galid o) v
            (legacy_im o) (wise o) (galex o).
Definition with_legacy_im v (o : obj) : obj :=
  Build_obj (names o) (wcs o) (halpha o) (size o) (ra o) (dec o) (galid o)
            (legacy o) v (wise o) (galex o).

(** The world of the cutout tool: the object, the disk, the URLs retrieved
    so far and the log of method calls. *)
Record world := {
  w_self : obj;
  w_disk : gmap string file;
  w_downloads : list string;
  w_calls : list string
}.

Definition set_self (o : obj) (w : world) : world :=
  {| w_self := o; w_disk := w_disk w; w_downloads := w_downloads w;
     w_calls := w_calls w |}.
Definition set_disk (d : gmap string file) (w : world) : world :=
  {| w_self := w_self w; w_disk := d; w_downloads := w_downloads w;
     w_calls := w_calls w |}.
Definition log_download (url : string) (w : world) : world :=
  {| w_self := w_self w; w_disk := w_disk w;
     w_downloads := w_downloads w ++ [url]; w_calls := w_calls w |}.
Definition log_call (name : string) (w : world) : world :=
  {| w_self := w_self w; w_disk := w_disk w; w_downloads := w_downloads w;
     w_calls := w_calls w ++ [name] |}.

Definition call {A} (name : string) (m : M world A) : M world A :=
  (modify (log_call name);;; m)%py.

(** The image servers and the libraries the tool calls.  The stages that
    unpack tar files, query MAST and draw the figure are taken whole: they
    see and change the object and the disk, not the two logs. *)
Class Services := {
  (** [str(v)] of a float *)
  str_float : Q -> string;
  (** the body a server sends for a URL; [None] when the request fails *)
  http_get : string -> option file;
  (** [WCS(name)] and [wcs.wcs_pix2world(x, y, 1)] *)
  WCS : gmap string file -> string -> option (gmap string hval);
  wcs_pix2world : gmap string hval -> Q -> Q -> Q * Q;
  download_unwise_images_op : obj * gmap string file -> res unit * (obj * gmap string file);
  load_unwise_images_op : obj * gmap string file -> res unit * (obj * gmap string file);
  get_galex_image_op : obj * gmap string file -> res unit * (obj * gmap string file);
  plotallcutouts_op : obj * gmap string file -> res unit * (obj * gmap string file)
}.

Section tool.
Context `{Services}.

(** [urlretrieve(url, filename)] *)
Definition urlretrieve (url filename : string) : M world unit :=
  (modify (log_download url);;;
   body <- lift_opt "URLError" (http_get url);;
   modify (fun w => set_disk (<[filename := body]> (w_disk w)) w))%py.

Definition legacy_rootname (galid : string) (imsize : Q) : string :=
  "cutouts/" +:+ galid +:+ "-legacy-" +:+ pretty (py_int imsize).
Definition legacy_jpeg_name (galid : string) (imsize : Q) : string :=
  legacy_rootname galid imsize +:+ ".jpg".
Definition legacy_fits_name (galid : string) (imsize : Q) (bands : string) : string :=
  legacy_rootname galid imsize +:+ "-" +:+ bands +:+ ".fits".
Definition legacy_jpeg_url (ra dec : Q) (pixscale : Z) (imsize : Q) : string :=
  "http://legacysurvey.org/viewer/jpeg-cutout?ra=" +:+ str_float ra +:+
  "&dec=" +:+ str_float dec +:+ "&layer=dr8&size=" +:+ pretty (py_int imsize) +:+
  "&pixscale=" +:+ pretty pixscale.
Definition legacy_fits_url (ra dec : Q) (pixscale : Z) (imsize : Q)
                           (bands : string) : string :=
  "http://legacysurvey.org/viewer/cutout.fits?ra=" +:+ str_float ra +:+
  "&dec=" +:+ str_float dec +:+ "&layer=dr8&size=" +:+ pretty (py_int imsize) +:+
  "&pixscale=" +:+ pretty pixscale +:+ "&bands=" +:+ bands.

(** [if not(os.path.exists(name)): urlretrieve(url, name)] *)
Definition retrieve_if_missing (url name : string) : M world unit :=
  (w <- get;;
   if bool_decide (is_Some (w_disk w !! name)) then ret tt
   else urlretrieve url name)%py.

(** The end of [get_legacy_images], from "try to read the data in": the
    names are returned, or [None] for an empty cutout ([t[1]] is the second
    row of a one-band cutout).  The handler of [IndexError] reads names
    that are not defined ([ra1], [dec1], [image_size]) and so raises
    [NameError]; so does [makeplots], which reads [jpeg]. *)
Definition read_legacy_cutout (fits_name jpeg_name : string) (makeplots : bool)
  : M world (option (string * string)) :=
  (w <- get;;
   match w_disk w !! fits_name with
   | None => raise (PyError "FileNotFoundError")
   | Some (RawFile _) => raise (PyError "OSError")
   | Some (FitsFile None _) => raise (PyError "NameError")
   | Some (FitsFile (Some t) h) =>
       t1 <- lift_opt "IndexError" (t !! 1%nat);;
       if np.mean_is_zero t1 then ret None
       else if makeplots then raise (PyError "NameError")
       else ret (Some (fits_name, jpeg_name))
   end)%py.

(** [get_legacy_images]: [Some (fits_name, jpeg_name)], or [None]. *)
Definition get_legacy_images (ra dec : Q) (galid : string) (pixscale : Z)
    (imsize : Q) (bands : string) (makeplots : bool)
  : M world (option (string * string)) :=
  (let jpeg_name := legacy_jpeg_name galid imsize in
   let fits_name := legacy_fits_name galid imsize bands in
   retrieve_if_missing (legacy_jpeg_url ra dec pixscale imsize) jpeg_name;;;
   retrieve_if_missing (legacy_fits_url ra dec pixscale imsize bands) fits_name;;;
   read_legacy_cutout fits_name jpeg_name makeplots)%py.

(** [cutouts.__init__] *)
Definition __init__ (rimage : string) : M world unit :=
  (w <- get;;
   modify (fun w => set_self (with_names {| r_name := rimage;
                      rootname := rootname (names (w_self w)) |} (w_self w)) w);;;
   wc <- lift_opt "OSError" (WCS (w_disk w) rimage);;
   modify (fun w => set_self (with_wcs wc (w_self w)) w);;;
   let s1 := if (-1 <? find rimage "_R")%Z then Some "_R.fits"%string else None in
   let s2 := if (-1 <? find rimage "-R")%Z then Some "-R.fits"%string
             else if (-1 <? find rimage "-r")%Z then Some "_r.fits"%string
             else s1 in
   split_string <- lift_opt "UnboundLocalError" s2;;
   modify (fun w => set_self (with_names {| r_name := rimage;
                      rootname := split_head rimage split_string |} (w_self w)) w))%py.

Definition get_halpha_cutouts : M world unit :=
  (w <- get;;
   let nm := names (w_self w) in
   rh <- fits_getdata (w_disk w) (r_name nm);;
   h <- fits_getdata (w_disk w) (rootname nm +:+ "-Ha.fits");;
   c <- fits_getdata (w_disk w) (rootname nm +:+ "-CS.fits");;
   modify (set_self (with_halpha {| r := fst rh; header := snd rh;
                                    ha := fst h; cs := fst c |} (w_self w))))%py.

(** [self.xsize_pix, self.ysize_pix = self.r.shape]: a two-dimensional
    image; ValueError when the unpacking fails. *)
Definition get_image_size : M world unit :=
  (w <- get;;
   let o := w_self w in
   row0 <- lift_opt "ValueError" (r (halpha o) !! 0%nat);;
   cd <- lift_opt "KeyError" (header (halpha o) !! "CD1_1");;
   c <- lift_opt "ValueError" (float_of_hval cd);;
   let xs := length (r (halpha o)) in
   let ys := length row0 in
   let ps := Qabs c in
   modify (set_self (with_size
     {| xsize_pix := xs; ysize_pix := ys; pscale := ps;
        xsize_arcsec := inject_Z (Z.of_nat xs) * ps * 3600;
        ysize_arcsec := inject_Z (Z.of_nat ys) * ps * 3600 |} o)))%py.

Definition get_RADEC : M world unit :=
  (w <- get;;
   let o := w_self w in
   let xcenter := inject_Z (Z.of_nat (xsize_pix (size o))) / 2 in
   let ycenter := inject_Z (Z.of_nat (ysize_pix (size o))) / 2 in
   modify (set_self (with_radec (wcs_pix2world (wcs o) xcenter ycenter) o)))%py.

Definition get_galid : M world unit :=
  (w <- get;;
   let o := w_self w in
   id <- lift_opt "KeyError" (header (halpha o) !! "ID");;
   modify (set_self (with_galid id o)))%py.

(** [a, b = get_legacy_images(...)]: unpacking [None] is a TypeError. *)
Definition unpack_pair (v : option (string * string)) : M world (string * string) :=
  lift_opt "TypeError" v.

Definition download_legacy : M world unit :=
  (w <- get;;
   let o := w_self w in
   let imsize := xsize_arcsec (size o) / LEGACY_PIXSCALE in
   let gid := str_hval str_float (galid o) in
   let lg0 := {| legacy_imsize := imsize;
                 legacy_filename_g := legacy_filename_g (legacy o);
                 legacy_filename_r := legacy_filename_r (legacy o);
                 legacy_filename_z := legacy_filename_z (legacy o);
                 legacy_jpegname := legacy_jpegname (legacy o) |} in
   modify (fun w => set_self (with_legacy lg0 (w_self w)) w);;;
   vg <- get_legacy_images (ra o) (dec o) gid 1 imsize "g" false;;
   g <- unpack_pair vg;;
   let lg1 := {| legacy_imsize := imsize;
                 legacy_filename_g := fst g;
                 legacy_filename_r := legacy_filename_r (legacy o);
                 legacy_filename_z := legacy_filename_z (legacy o);
                 legacy_jpegname := snd g |} in
   modify (fun w => set_self (with_legacy lg1 (w_self w)) w);;;
   vr <- get_legacy_images (ra o) (dec o) gid 1 imsize "r" false;;
   rr <- unpack_pair vr;;
   let lg2 := {| legacy_imsize := imsize;
                 legacy_filename_g := fst g;
                 legacy_filename_r := fst rr;
                 legacy_filename_z := legacy_filename_z (legacy o);
                 legacy_jpegname := snd rr |} in
   modify (fun w => set_self (with_legacy lg2 (w_self w)) w);;;
   vz <- get_legacy_images (ra o) (dec o) gid 1 imsize "z" false;;
   z <- unpack_pair vz;;
   let lg3 := {| legacy_imsize := imsize;
                 legacy_filename_g := fst g;
                 legacy_filename_r := fst rr;
                 legacy_filename_z := fst z;
                 legacy_jpegname := snd z |} in
   modify (fun w => set_self (with_legacy lg3 (w_self w)) w))%py.

(** [fits.getdata(name)] *)
Definition load_legacy_images : M world unit :=
  (w <- get;;
   let o := w_self w in
   g <- fits_getdata (w_disk w) (legacy_filename_g (legacy o));;
   rr <- fits_getdata (w_disk w) (legacy_filename_r (legacy o));;
   z <- fits_getdata (w_disk w) (legacy_filename_z (legacy o));;
   modify (set_self (with_legacy_im
     {| legacy_g := fst g; legacy_r := fst rr; legacy_z := fst z |} o)))%py.

(** A stage of the services: the object and the disk change, the logs
    do not. *)
Definition service (op : obj * gmap string file -> res unit * (obj * gmap string file))
  : M world unit :=
  fun w =>
    let (res, od) := op (w_self w, w_disk w) in
    (res, set_disk (snd od) (set_self (fst od) w)).

Definition download_unwise_images : M world unit := service download_unwise_images_op.
Definition load_unwise_images : M world unit := service load_unwise_images_op.
Definition get_galex_image : M world unit := service get_galex_image_op.
Definition plotallcutouts : M world unit := service plotallcutouts_op.

(** [cutouts.runall] *)
Definition runall : M world unit :=
  (call "get_halpha_cutouts" get_halpha_cutouts;;;
   call "get_image_size" get_image_size;;;
   call "get_RADEC" get_RADEC;;;
   call "get_galid" get_galid;;;
   call "download_legacy" download_legacy;;;
   call "load_legacy_images" load_legacy_images;;;
   call "download_unwise_images" download_unwise_images;;;
   call "load_unwise_images" load_unwise_images;;;
   call "get_galex_image" get_galex_image;;;
   call "plotallcutouts" plotallcutouts)%py.

(** The URLs [download_legacy] can retrieve for an object, in the order of
    its three calls: the jpeg and the g, r and z cutouts. *)
Definition legacy_urls (o : obj) : list string :=
  let imsize := xsize_arcsec (size o) / LEGACY_PIXSCALE in
  [legacy_jpeg_url (ra o) (dec o) 1 imsize;
   legacy_fits_url (ra o) (dec o) 1 imsize "g";
   legacy_fits_url (ra o) (dec o) 1 imsize "r";
   legacy_fits_url (ra o) (dec o) 1 imsize "z"].

End tool.

(** A chain of logged calls, as [runall] is one. *)
Fixpoint seq_calls (l : list (string * M world unit)) : M world unit :=
  match l with
  | [] => ret tt
  | (n, m) :: l' =>
      match l' with
      | [] => call n m
      | _ :: _ => (call n m;;; seq_calls l')%py
      end
  end.

(** The stages of [runall], in the order of the source. *)
Definition stages : list string :=
  ["get_halpha_cutouts"; "get_image_size"; "get_RADEC"; "get_galid";
   "download_legacy"; "load_legacy_images"; "download_unwise_images";
   "load_unwise_images"; "get_galex_image"; "plotallcutouts"].

(** The split string [__init__] ends up with: the branches of its two [if]
    statements, the later assignment first. *)
Definition marker_of (rimage : string) : option string :=
  if (-1 <? find rimage "-R")%Z then Some "-R.fits"%string
  else if (-1 <? find rimage "-r")%Z then Some "_r.fits"%string
  else if (-1 <? find rimage "_R")%Z then Some "_R.fits"%string
  else None.

(** [s.split(c)] for a separator [c] of one character. *)
Fixpoint split_char (c : ascii) (s : string) : list string :=
  match s with
  | EmptyString => [""%string]
  | String a s' =>
      if Ascii.eqb a c then ""%string :: split_char c s'
      else match split_char c s' with
           | h :: t => String a h :: t
           | [] => [String a ""]
           end
  end.

(** [c.join(l)] *)
Fixpoint join_char (c : ascii) (l : list string) : string :=
  match l with
  | [] => ""
  | h :: t =>
      match t with
      | [] => h
      | _ :: _ => h +:+ String c (join_char c t)
      end
  end.

Definition with_galex v (o : obj) : obj :=
  Build_obj (names o) (wcs o) (halpha o) (size o) (ra o) (dec o) (galid o)
            (legacy o) (legacy_im o) (wise o) v.

(** The GALEX archive: the data of the cutout the function
    [get_galex_image(ra, dec, imsize)] returns; [None] when it raises. *)
Class Mast := {
  galex_cutout : Q -> Q -> Q -> option (list (list Q))
}.

Section galex.
Context `{Mast}.

(** The method [cutouts.get_galex_image]: the NUV cutout is read from
    ['galex/'+galid+'-'+t[1]+'-nuv.fits'] when that file exists, and is
    fetched and written there when not.  ([fits.writeto] makes the header
    from the data; its structural keywords are not modelled.) *)
Definition get_galex_image_method : M world unit :=
  (w <- get;;
   let o := w_self w in
   let t := split_char "-" (rootname (names o)) in
   gid <- match galid o with
          | HStr g => ret g
          | _ => raise (PyError "TypeError")
          end;;
   t1 <- lift_opt "IndexError" (t !! 1%nat);;
   let name := "galex/" +:+ gid +:+ "-" +:+ t1 +:+ "-nuv.fits" in
   modify (fun w => set_self (with_galex
     {| nuv_image_name := name; nuv_image := nuv_image (galex (w_self w)) |}
     (w_self w)) w);;;
   if bool_decide (is_Some (w_disk w !! name)) then
     d <- fits_getdata (w_disk w) name;;
     modify (fun w => set_self (with_galex
       {| nuv_image_name := name; nuv_image := fst d |} (w_self w)) w)
   else
     cutout <- lift_opt "Exception" (galex_cutout (ra o) (dec o) (xsize_arcsec (size o)));;
     modify (fun w => set_disk (<[name := FitsFile (Some cutout) ∅]> (w_disk w)) w);;;
     modify (fun w => set_self (with_galex
       {| nuv_image_name := name; nuv_image := cutout |} (w_self w)) w))%py.

End galex.

End cutouts.

(** ** Instances for the examples *)

Module examples.
Import getzp.

(** Weighted least squares of a model [f x zp = g x + zp] in closed form:
    the weighted mean of [y - f x 0], weights [1/sigma^2].  It raises on
    empty data, on arrays of different lengths and on a zero sigma. *)
Definition wls (f : Q -> Q -> Q) (x y sigma : list Q) : option fit_result :=
  if negb ((length x =? length y)%nat && (length y =? length sigma)%nat) then None
  else if (length x =? 0)%nat then None
  else if existsb (fun s => Qeq_bool s 0) sigma then None
  else
    let w := map (fun s => / (s * s)) sigma in
    let d := zip_with (fun xi yi => yi - f xi 0) x y in
    let sw := np.sum w in
    let zp := Qred (np.sum (zip_with Qmult w d) / sw) in
    let chi2 := np.sum (zip_with (fun wi di => wi * (di - zp) * (di - zp)) w d) in
    Some {| popt := zp;
            pcov := if (length x <=? 1)%nat then 0
                    else Qred (chi2 / inject_Z (Z.of_nat (length x - 1)) / sw) |}.

Definition line_fit (x y : list Q) : option (list Q) :=
  match x with [] => None | _ => Some [1; 0] end.

Instance wls_scipy : Scipy := {| curve_fit := wls; polyfit1 := line_fit |}.

(** A small field: four stars seen by both surveys, a fifth Pan-STARRS star
    with no detection near it, and a detection with no Pan-STARRS star. *)
Definition star (ra dec m : Q) : se_row := {|
  ALPHA_J2000 := ra; DELTA_J2000 := dec; X_IMAGE := 100; Y_IMAGE := 100;
  FLAGS := 0; CLASS_STAR := 0.98; FWHM_IMAGE := 3;
  MAG_AUTO := m; MAGERR_AUTO := 0.01; MAG_BEST := m; MAGERR_BEST := 0.01;
  MAG_PETRO := m; MAGERR_PETRO := 0.01;
  MAG_APER := [m; m; m; m; m; m];
  MAGERR_APER := [0.01; 0.01; 0.01; 0.01; 0.01; 0.01] |}.

Definition ps1 (ra dec r : Q) : pan_row := {|
  RAJ2000 := ra; DEJ2000 := dec; Qual := 52;
  gmag := r + 0.5; rmag := r; e_rmag := 0.01; imag := r - 0.2 |}.

Definition field_cat : list se_row :=
  [star 150.01 2.01 (-10.01); star 150.02 2.02 (-8.99);
   star 150.03 2.03 (-9.51); star 150.04 2.04 (-8.49);
   star 150.30 2.30 (-7)].

Definition field_pan : list pan_row :=
  [ps1 150.01 2.01 15; ps1 150.02 2.02 16; ps1 150.20 2.20 15.2;
   ps1 150.03 2.03 15.5; ps1 150.04 2.04 16.5].

(** A poorer image of the same field: one star detected. *)
Definition sparse_cat : list se_row := [star 150.01 2.01 (-10.01)].

(** Separation on a small flat patch; Source Extractor and VizieR answer
    with the field above for the image [test.coadd.fits], and with the
    single detection for [sparse.coadd.fits]. *)
Instance flat_sky : Sky := {|
  separation p q := Qabs (fst p - fst q) + Qabs (snd p - snd q);
  sextractor name satur fwhm :=
    if String.eqb name "test.coadd.fits" then Some field_cat
    else if String.eqb name "sparse.coadd.fits" then Some sparse_cat
    else None;
  panstarrs_query ra dec rad := Some field_pan
|}.

Definition test_header : gmap string hval :=
  <["EXPTIME" := HFloat 1]> (<["OBJECT" := HStr "pointing031"]> ∅).

Definition test_image : file := FitsFile (Some [[1; 2]; [3; 4]]) test_header.

Definition test_cfg : config := {|
  image := "test.coadd.fits"; astrodir := "~/github/HalphaImaging/astromatic/";
  instrument := "h"; filter := "R"; nsigma := 2; useri := false;
  naper := 5; mag := 0; args_fwhm := None |}.

Definition blank_obj (c : config) : obj := {|
  cfg := c;
  se := {| keepsection := []; secat := []; centerRA := 0; centerDEC := 0;
           radius := 0 |};
  pan := [];
  mt := {| matchflag := []; matchedarray1 := []; fitflag := [];
           goodarea_flag := []; R := [] |};
  fit := {| bestc := []; self_x := []; self_y := []; self_yerr := [];
            residual := []; zpcovar := 0; zp := 0 |} |}.

Definition test_world : world := {|
  w_self := blank_obj test_cfg;
  w_disk := <["test.coadd.fits" := test_image]> ∅;
  w_calls := [] |}.

Definition sparse_world : world := {|
  w_self := blank_obj
    {| image := "sparse.coadd.fits"; astrodir := astrodir test_cfg;
       instrument := "h"; filter := "R"; nsigma := 2; useri := false;
       naper := 5; mag := 0; args_fwhm := None |};
  w_disk := <["sparse.coadd.fits" := test_image]> ∅;
  w_calls := [] |}.

(** The object after [runse] and [get_panstarrs], and after [match_coords]. *)
Definition field_obj : obj :=
  Eval vm_compute in w_self (snd ((runse;;; get_panstarrs)%py test_world)).
Definition field_matched : obj :=
  Eval vm_compute in snd (match_coords field_obj).

(** The world after a fit that found the intercept -24.787. *)
Definition fitted_world : world := {|
  w_self := set_bestc [1; -24.787] (blank_obj test_cfg);
  w_disk := <["test.coadd.fits" := test_image]> ∅;
  w_calls := [] |}.

(** Five stars for the fit, the last one an outlier. *)
Definition outlier_obj : obj :=
  with_mt {| matchflag := [true; true; true; true; true];
             matchedarray1 := [star 150.01 2.01 (-10); star 150.02 2.02 (-9.01);
                               star 150.03 2.03 (-9.5); star 150.04 2.04 (-11.02);
                               star 150.05 2.05 (-5)];
             fitflag := [true; true; true; true; true];
             goodarea_flag := [];
             R := [15; 16; 15.5; 14; 16.5] |}
    (with_pan [ps1 150.01 2.01 15; ps1 150.02 2.02 16; ps1 150.03 2.03 15.5;
               ps1 150.04 2.04 14; ps1 150.05 2.05 16.5]
       (blank_obj test_cfg)).

Definition locals_of (r : res locals * obj) : locals :=
  match fst r with
  | Ret l => l
  | Exc _ => {| delta := 0; x := []; y := []; yerr := []; t := None |}
  end.

(** The locals and the object before the loop, after one pass and after
    two. *)
Definition outlier_start : res locals * obj :=
  Eval vm_compute in fitzp_setup outlier_obj.
Definition outlier_pass1 : res locals * obj :=
  Eval vm_compute in loop_body (locals_of outlier_start) (snd outlier_start).
Definition outlier_pass2 : res locals * obj :=
  Eval vm_compute in loop_body (locals_of outlier_pass1) (snd outlier_pass1).

(** The cutout tool: a 2 x 2 R-band cutout of galaxy VFID0001 with its
    H-alpha and continuum-subtracted companions, and two Legacy servers: one
    that has the field, one that answers with empty (all-zero) cutouts, as
    for a position off the survey footprint. *)
Definition r_header : gmap string hval :=
  <["CD1_1" := HFloat (-0.01)]> (<["ID" := HStr "VFID0001"]> ∅).

Definition cutout_disk : gmap string file :=
  <["v17p01-VFID0001-R.fits" := FitsFile (Some [[1; 2]; [3; 4]]) r_header]>
  (<["v17p01-VFID0001-Ha.fits" := FitsFile (Some [[5; 6]; [7; 8]]) ∅]>
  (<["v17p01-VFID0001-CS.fits" := FitsFile (Some [[4; 4]; [4; 4]]) ∅]>
  (<["ngc4254.fits" := FitsFile (Some [[1; 2]; [3; 4]]) r_header]> ∅))).

Definition is_jpeg_url (url : string) : bool :=
  String.prefix "http://legacysurvey.org/viewer/jpeg-cutout?" url.
Definition is_fits_url (url : string) : bool :=
  String.prefix "http://legacysurvey.org/viewer/cutout.fits?" url.

Definition quiet_stage (od : cutouts.obj * gmap string file)
  : res unit * (cutouts.obj * gmap string file) := (Ret tt, od).

Definition survey (cutout : list (list Q)) : cutouts.Services := {|
  cutouts.str_float q := pretty (Qfloor q);
  cutouts.http_get url :=
    if is_jpeg_url url then Some (RawFile "JFIF")
    else if is_fits_url url then Some (FitsFile (Some cutout) ∅)
    else None;
  cutouts.WCS disk name :=
    match disk !! name with
    | Some (FitsFile _ h) => Some h
    | _ => None
    end;
  cutouts.wcs_pix2world h px py := (208.1, 40.3);
  cutouts.download_unwise_images_op := quiet_stage;
  cutouts.load_unwise_images_op := quiet_stage;
  cutouts.get_galex_image_op := quiet_stage;
  cutouts.plotallcutouts_op := quiet_stage
|}.

Definition in_footprint : cutouts.Services := survey [[0.1; 0.2]; [0.3; 0.1]].
Definition off_footprint : cutouts.Services := survey [[0; 0]; [0; 0]].

Definition blank_cutouts : cutouts.obj := {|
  cutouts.names := {| cutouts.r_name := ""; cutouts.rootname := "" |};
  cutouts.wcs := ∅;
  cutouts.halpha := {| cutouts.r := []; cutouts.header := ∅;
                       cutouts.ha := []; cutouts.cs := [] |};
  cutouts.size := {| cutouts.xsize_pix := 0; cutouts.ysize_pix := 0;
                     cutouts.pscale := 0; cutouts.xsize_arcsec := 0;
                     cutouts.ysize_arcsec := 0 |};
  cutouts.ra := 0; cutouts.dec := 0; cutouts.galid := HStr "";
  cutouts.legacy := {| cutouts.legacy_imsize := 0;
                       cutouts.legacy_filename_g := "";
                       cutouts.legacy_filename_r := "";
                       cutouts.legacy_filename_z := "";
                       cutouts.legacy_jpegname := "" |};
  cutouts.legacy_im := {| cutouts.legacy_g := []; cutouts.legacy_r := [];
                          cutouts.legacy_z := [] |};
  cutouts.wise := {| cutouts.wise_band := ""; cutouts.wise_imsize := 0;
                     cutouts.wise_filenames := [];
                     cutouts.wise_multiframe_flag := false;
                     cutouts.wise_images := [] |};
  cutouts.galex := {| cutouts.nuv_image_name := ""; cutouts.nuv_image := [] |}
|}.

Definition cutout_world : cutouts.world := {|
  cutouts.w_self := blank_cutouts;
  cutouts.w_disk := cutout_disk;
  cutouts.w_downloads := [];
  cutouts.w_calls := []
|}.

(** The world after [cutouts('v17p01-VFID0001-R.fits')]. *)
Definition ready_world : cutouts.world :=
  snd (@cutouts.__init__ in_footprint "v17p01-VFID0001-R.fits" cutout_world).


(** An image taken with a camera the program does not know. *)
Definition unknown_world : world := {|
  w_self := blank_obj
    {| image := "test.coadd.fits"; astrodir := astrodir test_cfg;
       instrument := "x"; filter := "R"; nsigma := 2; useri := false;
       naper := 5; mag := 0; args_fwhm := None |};
  w_disk := <["test.coadd.fits" := test_image]> ∅;
  w_calls := [] |}.


(** Three stars on a line of slope 1: a fit without residuals. *)
Definition perfect_locals : locals :=
  {| delta := 100; x := [15; 16; 17]; y := [-10; -9; -8];
     yerr := [0.01; 0.01; 0.01]; t := None |}.


(** Two more R images for the cutout tool, one with a lower-case filter
    name, one named with an underscore only. *)
Definition more_cutout_world : cutouts.world := {|
  cutouts.w_self := blank_cutouts;
  cutouts.w_disk :=
    <["VFID0001-r.fits" := FitsFile (Some [[1; 2]; [3; 4]]) r_header]>
    (<["ngc4254_R.fits" := FitsFile (Some [[1; 2]; [3; 4]]) r_header]>
       cutout_disk);
  cutouts.w_downloads := [];
  cutouts.w_calls := []
|}.

(** The object of [ready_world] after each of the first four stages of
    [runall]. *)
Definition loaded_world : cutouts.world :=
  snd (@cutouts.get_halpha_cutouts ready_world).
Definition sized_world : cutouts.world :=
  snd (@cutouts.get_image_size loaded_world).
Definition placed_world : cutouts.world :=
  snd (@cutouts.get_RADEC in_footprint sized_world).
Definition measured_world : cutouts.world :=
  snd (@cutouts.get_galid placed_world).

(** The object made from 'ngc4254_R.fits', with its galaxy id read. *)
Definition underscore_world : cutouts.world :=
  let w := snd (@cutouts.__init__ in_footprint "ngc4254_R.fits" more_cutout_world) in
  cutouts.set_self (cutouts.with_galid (HStr "VFID0001") (cutouts.w_self w)) w.

(** The GALEX archive when it answers, and when it does not. *)
Definition mast_up : cutouts.Mast :=
  {| cutouts.galex_cutout ra dec imsize := Some [[9; 9]; [9; 9]] |}.

End examples.

(** * Properties *)

(** ** Masks and rationals *)

Section numpy_facts.
Context {A : Type}.
Implicit Types (mask : list bool) (a : list A).

Lemma compress_length mask a :
  length mask = length a -> length (np.compress mask a) = np.sum_flag mask.
Proof.
  revert a; induction mask as [|b mask IH]; intros [|v a]; simpl; try easy.
  intros [= Hlen]. destruct b; simpl; rewrite IH; auto.
Qed.

Lemma sum_flag_le mask : (np.sum_flag mask <= length mask)%nat.
Proof. induction mask as [|[] mask IH]; simpl; lia. Qed.

Lemma compress_all mask a :
  length mask = length a -> np.sum_flag mask = length mask ->
  np.compress mask a = a.
Proof.
  revert a; induction mask as [|b mask IH]; intros [|v a]; simpl; try easy.
  intros [= Hlen] Hs. pose proof (sum_flag_le mask).
  destruct b; simpl in Hs; [|lia].
  f_equal. apply IH; auto; lia.
Qed.

Lemma compress_zip {B} mask a (b : list B) :
  np.compress mask (zip a b) = zip (np.compress mask a) (np.compress mask b).
Proof.
  revert a b; induction mask as [|m mask IH]; intros [|v a] [|w b]; simpl;
    try easy; destruct m; simpl; rewrite ?IH; try easy;
    now destruct (np.compress mask a).
Qed.

Lemma compress_filter (f : Q -> bool) (P : Q -> Prop) `{!forall v, Decision (P v)}
    a (r : list Q) :
  (forall v, f v = true <-> P v) -> length a = length r ->
  np.compress (map f r) a = (filter (fun p => P p.2) (zip a r)).*1.
Proof.
  intros Hf. revert a; induction r as [|ri r IH]; intros [|v a]; simpl; try easy.
  intros [= Hlen]. rewrite filter_cons. simpl.
  destruct (f ri) eqn:Hfr.
  - rewrite decide_True by now apply Hf. simpl. now rewrite IH.
  - rewrite decide_False; [now apply IH|].
    intros HP. apply Hf in HP. congruence.
Qed.

Lemma mask_assign_spec a mask vals a' :
  np.mask_assign a mask vals = Some a' ->
  length a' = length a /\ length mask = length a /\
  forall i, mask !! i = Some false -> a' !! i = a !! i.
Proof.
  revert mask vals a'; induction a as [|v a IH]; intros [|b mask] vals a';
    simpl; try discriminate.
  - destruct vals; [|discriminate]. intros [= <-]. repeat split.
  - destruct b.
    + destruct vals as [|w vals]; [discriminate|].
      destruct (np.mask_assign a mask vals) as [a1|] eqn:Ha; [|discriminate].
      intros [= <-]. destruct (IH _ _ _ Ha) as (Hl & Hm & Hi).
      simpl. repeat split; [lia..|]. intros [|i]; simpl; [discriminate|apply Hi].
    + destruct (np.mask_assign a mask vals) as [a1|] eqn:Ha; [|discriminate].
      intros [= <-]. destruct (IH _ _ _ Ha) as (Hl & Hm & Hi).
      simpl. repeat split; [lia..|]. intros [|i]; simpl; [reflexivity|apply Hi].
Qed.

End numpy_facts.

Lemma Qltb_lt a b : np.Qltb a b = true <-> a < b.
Proof.
  unfold np.Qltb. rewrite negb_true_iff, <- not_true_iff_false, Qle_bool_iff.
  split; [apply Qnot_le_lt | apply Qlt_not_le].
Qed.

Lemma delta_same c : np.Qltb 0.001 (Qabs (c - c)) = false.
Proof.
  apply not_true_iff_false. rewrite Qltb_lt.
  assert (E : c - c == 0) by ring.
  rewrite E. now compute.
Qed.

(** ** Rounding to three decimals *)

Lemma Qltb_ge a b : np.Qltb a b = false <-> b <= a.
Proof.
  unfold np.Qltb. rewrite negb_false_iff. apply Qle_bool_iff.
Qed.









(** ** The fit loop of [fitzp] *)

Section fitzp_facts.
Import getzp.
Context `{Scipy}.

Lemma loop_body_eq l self fr b1 :
  curve_fit zpfunc (x l) (y l) (yerr l) = Some fr ->
  bestc (fit self) !! 1%nat = Some b1 ->
  loop_body l self =
    if (np.sum_flag (pass_flag fr l self) <? 2)%nat
    then (Exc SystemExit, pass_self fr l self)
    else (Ret (pass_locals fr b1 l self), pass_self fr l self).
Proof.
  intros Hfit Hb. unfold loop_body, bind, get, lift_opt, modify, ret, raise.
  rewrite Hfit, Hb. cbn [lookup list_lookup].
  fold (pass_residual fr l). fold (pass_flag fr l self).
  destruct (np.sum_flag (pass_flag fr l self) <? 2)%nat; reflexivity.
Qed.

Lemma loop_body_ret l self l' self' :
  loop_body l self = (Ret l', self') ->
  exists fr b1,
    curve_fit zpfunc (x l) (y l) (yerr l) = Some fr /\
    bestc (fit self) !! 1%nat = Some b1 /\
    (2 <= np.sum_flag (pass_flag fr l self))%nat /\
    l' = pass_locals fr b1 l self /\ self' = pass_self fr l self.
Proof.
  intros Hb.
  destruct (curve_fit zpfunc (x l) (y l) (yerr l)) as [fr|] eqn:Hfit;
    [|unfold loop_body, bind, get, lift_opt, raise in Hb; now rewrite Hfit in Hb].
  destruct (bestc (fit self) !! 1%nat) as [b1|] eqn:Hb1;
    [|unfold loop_body, bind, get, lift_opt, raise, ret in Hb;
      now rewrite Hfit, Hb1 in Hb].
  rewrite (loop_body_eq _ _ _ _ Hfit Hb1) in Hb.
  destruct (np.sum_flag (pass_flag fr l self) <? 2)%nat eqn:Hs; [discriminate|].
  apply Nat.ltb_ge in Hs. injection Hb as <- <-. eauto 10.
Qed.

Lemma pass_flag_length fr l self :
  aligned l -> length (pass_flag fr l self) = length (x l).
Proof.
  intros [Hxy _]. unfold pass_flag, clip_flag, abs_dev, pass_residual,
    fit_residual, np.sub, np.polyval.
  rewrite !length_map, length_zip_with, length_map. lia.
Qed.

Lemma pass_locals_aligned fr b1 l self :
  aligned l -> aligned (pass_locals fr b1 l self).
Proof.
  intros Hal. pose proof (pass_flag_length fr l self Hal) as Hlen.
  destruct Hal as [Hxy Hye]. unfold aligned; simpl.
  rewrite !compress_length by lia. auto.
Qed.

Lemma pass_locals_length fr b1 l self :
  aligned l ->
  length (x (pass_locals fr b1 l self)) = np.sum_flag (pass_flag fr l self).
Proof.
  intros Hal. simpl. apply compress_length. now apply pass_flag_length.
Qed.

(** A pass that rejects nothing leaves the data as they are, and the pass
    after it finds the same intercept: [delta] is 0 and the loop ends. *)
Lemma fit_loop_stable l self fr b1 fuel :
  aligned l ->
  curve_fit zpfunc (x l) (y l) (yerr l) = Some fr ->
  (2 <= np.sum_flag (pass_flag fr l self))%nat ->
  np.sum_flag (pass_flag fr l self) = length (x l) ->
  exists r, fit_loop (S fuel) (pass_locals fr b1 l self) (pass_self fr l self) = Some r.
Proof.
  intros Hal Hfit H2 Hall.
  pose proof (pass_flag_length fr l self Hal) as Hlen.
  destruct Hal as [Hxy Hye].
  set (l1 := pass_locals fr b1 l self). set (s1 := pass_self fr l self).
  assert (Hx : x l1 = x l) by (apply compress_all; lia).
  assert (Hy : y l1 = y l) by (apply compress_all; lia).
  assert (He : yerr l1 = yerr l) by (apply compress_all; lia).
  cbn [fit_loop]. destruct (np.Qltb 0.001 (delta l1)); [|eauto].
  assert (Hfit1 : curve_fit zpfunc (x l1) (y l1) (yerr l1) = Some fr)
    by now rewrite Hx, Hy, He.
  assert (Hb1 : bestc (fit s1) !! 1%nat = Some (popt fr)) by reflexivity.
  rewrite (loop_body_eq _ _ _ _ Hfit1 Hb1).
  assert (Hfl : pass_flag fr l1 s1 = pass_flag fr l self).
  { unfold pass_flag, pass_residual. now rewrite Hx, Hy. }
  rewrite Hfl. apply Nat.ltb_ge in H2. rewrite H2.
  destruct fuel; cbn [fit_loop pass_locals delta]; rewrite delta_same; eauto.
Qed.

Lemma fit_loop_fuel n l self :
  aligned l -> (length (x l) <= n)%nat ->
  exists r, fit_loop (S n) l self = Some r.
Proof.
  revert l self. induction n as [|n IH]; intros l self Hal Hn.
  - cbn [fit_loop]. destruct (np.Qltb 0.001 (delta l)); [|eauto].
    destruct (loop_body l self) as [[l'|e] self'] eqn:Hb; [|eauto].
    apply loop_body_ret in Hb as (fr & b1 & _ & _ & H2 & _ & _).
    pose proof (sum_flag_le (pass_flag fr l self)).
    rewrite (pass_flag_length fr l self Hal) in *. lia.
  - change (fit_loop (S (S n)) l self) with
      (if np.Qltb 0.001 (delta l) then
         match loop_body l self with
         | (Ret l', self') => fit_loop (S n) l' self'
         | (Exc e, self') => Some (Exc e, self')
         end
       else Some (Ret l, self)).
    destruct (np.Qltb 0.001 (delta l)); [|eauto].
    destruct (loop_body l self) as [[l'|e] self'] eqn:Hb; [|eauto].
    apply loop_body_ret in Hb as (fr & b1 & Hfit & _ & H2 & -> & ->).
    pose proof (sum_flag_le (pass_flag fr l self)) as Hle.
    rewrite (pass_flag_length fr l self Hal) in Hle.
    destruct (Nat.eq_dec (np.sum_flag (pass_flag fr l self)) (length (x l))) as [Heq|Hne].
    + now apply fit_loop_stable.
    + apply IH; [now apply pass_locals_aligned|].
      rewrite pass_locals_length by assumption. lia.
Qed.

End fitzp_facts.


Section fitzp_claims.
Import getzp.
Context `{Scipy}.

Lemma fit_loop_runs fuel l s r :
  fit_loop fuel l s = Some r -> exists k, (k <= fuel)%nat /\ runs l s k r.
Proof.
  revert l s. induction fuel as [|fuel IH]; intros l s; cbn [fit_loop];
    destruct (np.Qltb 0.001 (delta l)) eqn:Hd; try discriminate.
  - intros [= <-]. exists 0%nat. split; [lia | now constructor].
  - destruct (loop_body l s) as [[l1|e] s1] eqn:Hb.
    + intros Hr. apply IH in Hr as (k & Hk & Hruns).
      exists (S k). split; [lia | eapply runs_pass; eauto].
    + intros [= <-]. exists 1%nat. split; [lia | now apply runs_raise].
  - intros [= <-]. exists 0%nat. split; [lia | now constructor].
Qed.

Lemma runs_fit_loop l s k r fuel :
  runs l s k r -> (k <= fuel)%nat -> fit_loop fuel l s = Some r.
Proof.
  intros Hruns. revert fuel.
  induction Hruns as [l s Hd|l s e s' Hd Hb|l s l1 s1 k r Hd Hb _ IH]; intros fuel Hk.
  - destruct fuel; cbn [fit_loop]; now rewrite Hd.
  - destruct fuel as [|fuel]; [lia|]. cbn [fit_loop]. now rewrite Hd, Hb.
  - destruct fuel as [|fuel]; [lia|]. cbn [fit_loop]. rewrite Hd, Hb.
    apply IH. lia.
Qed.

(** C1: the loop of [fitzp] is bounded.  On matched arrays [x], [y], [yerr]
    of n entries the while-loop executes at most n + 1 passes and then ends,
    by leaving the loop or by an exception of a pass; any fuel from n + 1 on
    gives that result. *)
Theorem fit_loop_terminates l self :
  aligned l ->
  exists k r,
    (k <= S (length (x l)))%nat /\ runs l self k r /\
    forall fuel, (S (length (x l)) <= fuel)%nat -> fit_loop fuel l self = Some r.
Proof.
  intros Hal.
  destruct (fit_loop_fuel (length (x l)) l self Hal (Nat.le_refl _)) as [r Hr].
  destruct (fit_loop_runs _ _ _ _ Hr) as (k & Hk & Hruns).
  exists k, r. split; [exact Hk|]. split; [exact Hruns|].
  intros fuel Hfuel. apply (runs_fit_loop _ _ _ _ _ Hruns). lia.
Qed.

Lemma clip_flag_within nsigma r ri :
  np.Qltb (Qabs (ri - np.median r)) (nsigma * MAD r) = true <->
  within_clip nsigma r ri.
Proof. apply Qltb_lt. Qed.

Lemma clip_flag_map nsigma r :
  clip_flag nsigma r =
  map (fun ri => np.Qltb (Qabs (ri - np.median r)) (nsigma * MAD r)) r.
Proof. unfold clip_flag, abs_dev. now rewrite map_map. Qed.

Lemma fit_residual_model zp0 xs ys :
  Forall2 (fun ri p => ri == zpfunc p.1 zp0 - p.2)
          (fit_residual [1; zp0] xs ys) (zip xs ys).
Proof.
  revert ys; induction xs as [|v xs IH]; intros [|w ys]; try constructor.
  - unfold zpfunc. cbn. ring.
  - apply IH.
Qed.

(** C2: the clip of a pass.  With [r] the residuals [yfit - y] of the
    pass's fit (the line of slope 1 through the fitted intercept) and
    MAD = 1.48 * median(|r - median(r)|), the points handed to the next
    pass are exactly those with |r_i - median(r)| < nsigma * MAD, in
    their order, in all three arrays. *)
Theorem clip_retains_exactly l s l' s' :
  aligned l ->
  loop_body l s = (Ret l', s') ->
  let r := residual (fit s') in
  (exists zp0, bestc (fit s') = [1; zp0] /\
     Forall2 (fun ri p => ri == zpfunc p.1 zp0 - p.2) r (zip (x l) (y l))) /\
  zip (zip (x l') (y l')) (yerr l') =
    (base.filter (fun p => within_clip (nsigma (cfg s)) r p.2)
            (zip (zip (zip (x l) (y l)) (yerr l)) r)).*1 /\
  aligned l'.
Proof.
  intros Hal Hb.
  apply loop_body_ret in Hb as (fr & b1 & _ & _ & _ & -> & ->).
  cbn zeta. split; [|split].
  - exists (popt fr). split; [reflexivity|]. apply fit_residual_model.
  - cbn [pass_locals x y yerr pass_self set_x_y_residual with_fit fit residual].
    rewrite <- !compress_zip. unfold pass_flag. rewrite clip_flag_map.
    apply compress_filter; [intros v; apply clip_flag_within|].
    pose proof (pass_flag_length fr l s Hal) as Hlen.
    unfold pass_flag, clip_flag, abs_dev in Hlen. rewrite !length_map in Hlen.
    destruct Hal as [Hxy Hye]. rewrite !length_zip.
    rewrite Hlen. lia.
  - now apply pass_locals_aligned.
Qed.

Lemma passes_runs k l0 s0 l s j r :
  passes k l0 s0 l s -> runs l s j r -> runs l0 s0 (k + j) r.
Proof.
  induction 1 as [|k l0 s0 l1 s1 l s Hd Hb _ IH]; intros Hr; [exact Hr|].
  simpl. eapply runs_pass; eauto.
Qed.

Lemma runs_ret_passes l s k l' s' :
  runs l s k (Ret l', s') ->
  passes k l s l' s' /\ np.Qltb 0.001 (delta l') = false.
Proof.
  intros Hr. remember (Ret l', s') as r eqn:Er.
  induction Hr as [l s Hd|l s e s1 Hd Hb|l s l1 s1 k r Hd Hb _ IH].
  - injection Er as -> ->. split; [constructor | exact Hd].
  - discriminate.
  - destruct (IH Er) as [Hp Hd']. split; [|exact Hd'].
    eapply passes_S; eauto.
Qed.

(** What a pass leaves alone on the object. *)
Lemma loop_body_frame l s r s' :
  loop_body l s = (r, s') ->
  cfg s' = cfg s /\ se s' = se s /\ pan s' = pan s /\ mt s' = mt s /\
  zp (fit s') = zp (fit s) /\ zpcovar (fit s') = zpcovar (fit s) /\
  self_yerr (fit s') = self_yerr (fit s).
Proof.
  destruct (curve_fit zpfunc (x l) (y l) (yerr l)) as [fr|] eqn:Hfit;
    [|unfold loop_body, bind, get, lift_opt, raise; rewrite Hfit;
      intros [= <- <-]; repeat split].
  destruct (bestc (fit s) !! 1%nat) as [b1|] eqn:Hb1;
    [|unfold loop_body, bind, get, lift_opt, raise, ret; rewrite Hfit, Hb1;
      intros [= <- <-]; repeat split].
  rewrite (loop_body_eq _ _ _ _ Hfit Hb1).
  destruct (np.sum_flag (pass_flag fr l s) <? 2)%nat; intros [= <- <-];
    repeat split.
Qed.

Lemma passes_frame k l0 s0 l s :
  passes k l0 s0 l s -> cfg s = cfg s0 /\ zp (fit s) = zp (fit s0).
Proof.
  induction 1 as [|k l0 s0 l1 s1 l s _ Hb _ [IHc IHz]]; [easy|].
  apply loop_body_frame in Hb as (Hc & _ & _ & _ & Hz & _). split; congruence.
Qed.

Lemma passes_bestc_fitted k l0 s0 l s :
  passes (S k) l0 s0 l s ->
  exists fr xs ys es,
    curve_fit zpfunc xs ys es = Some fr /\ bestc (fit s) = [1; popt fr].
Proof.
  remember (S k) as n eqn:En. intros Hp. revert k En.
  induction Hp as [|n l0 s0 l1 s1 l s _ Hb Hp IH]; intros k En; [discriminate|].
  destruct n as [|n].
  - inversion Hp; subst.
    apply loop_body_ret in Hb as (fr & b1 & Hfit & _ & _ & _ & ->). eauto 10.
  - eapply IH; eauto.
Qed.

Lemma passes_bestc_pair k l0 s0 l s :
  passes k l0 s0 l s ->
  (exists b0 b1, bestc (fit s0) = [b0; b1]) ->
  exists b0 b1, bestc (fit s) = [b0; b1].
Proof.
  destruct k as [|k]; intros Hp Hb0.
  - inversion Hp; subst; exact Hb0.
  - apply passes_bestc_fitted in Hp as (fr & _ & _ & _ & _ & ->). eauto.
Qed.

Lemma fitzp_setup_ret s l0 s0 :
  fitzp_setup s = (Ret l0, s0) ->
  delta l0 = 100 /\ t l0 = None /\ s0 = set_bestc [0; 0] s.
Proof.
  unfold fitzp_setup, bind, get, lift_opt, modify, ret, raise.
  destruct (polyfit1 _ _); [|discriminate].
  destruct (mag (cfg s) =? 0)%Z.
  { destruct (aper_column MAG_APER _ _); [|discriminate].
    destruct (aper_column MAGERR_APER _ _); [|discriminate].
    now intros [= <- <-]. }
  destruct (mag (cfg s) =? 1)%Z; [now intros [= <- <-]|].
  destruct (mag (cfg s) =? 2)%Z; [now intros [= <- <-]|discriminate].
Qed.

(** C6: the zero-point is a purely additive offset.  After every pass of
    the loop, the pass that ends in [sys.exit] included, [bestc] is
    [[1, zp]] with [zp] the parameter [curve_fit] found for [zpfunc]; the
    line it describes is [x + zp], of slope 1; and when [fitzp] returns,
    the stored [zp] is that intercept. *)
Theorem zp_is_additive_offset :
  (forall k l0 s0 l s,
     passes (S k) l0 s0 l s ->
     exists fr xs ys es,
       curve_fit zpfunc xs ys es = Some fr /\ bestc (fit s) = [1; popt fr]) /\
  (forall l s s',
     loop_body l s = (Exc SystemExit, s') ->
     exists fr,
       curve_fit zpfunc (x l) (y l) (yerr l) = Some fr /\
       bestc (fit s') = [1; popt fr]) /\
  (forall fuel s s',
     fitzp fuel s = Some (Ret tt, s') ->
     exists fr xs ys es,
       curve_fit zpfunc xs ys es = Some fr /\
       bestc (fit s') = [1; popt fr] /\ zp (fit s') = popt fr) /\
  (forall zp0 v,
     np.polyval1 [1; zp0] v == zpfunc v zp0 /\ zpfunc v zp0 == 1 * v + zp0).
Proof.
  split; [|split; [|split]].
  - intros k l0 s0 l s Hp. exact (passes_bestc_fitted _ _ _ _ _ Hp).
  - intros l s s' Hb.
    destruct (curve_fit zpfunc (x l) (y l) (yerr l)) as [fr|] eqn:Hfit;
      [|unfold loop_body, bind, get, lift_opt, raise in Hb;
        rewrite Hfit in Hb; discriminate].
    destruct (bestc (fit s) !! 1%nat) as [b1|] eqn:Hb1;
      [|unfold loop_body, bind, get, lift_opt, raise, ret in Hb;
        rewrite Hfit, Hb1 in Hb; discriminate].
    rewrite (loop_body_eq _ _ _ _ Hfit Hb1) in Hb.
    destruct (np.sum_flag (pass_flag fr l s) <? 2)%nat; [|discriminate].
    injection Hb as <-. eauto.
  - intros fuel s s'. unfold fitzp.
    destruct (fitzp_setup s) as [[l0|e] s0] eqn:Hset; [|discriminate].
    destruct (fit_loop fuel l0 s0) as [[[l|e] s2]|] eqn:Hloop; try discriminate.
    apply fitzp_setup_ret in Hset as (Hd & _ & _).
    apply fit_loop_runs in Hloop as (k & _ & Hruns).
    apply runs_ret_passes in Hruns as [Hp Hd'].
    destruct k as [|k].
    { inversion Hp; subst. rewrite Hd in Hd'. discriminate. }
    apply passes_bestc_fitted in Hp as (fr & xs & ys & es & Hfit & Hbc).
    unfold fitzp_finish, bind, get, lift_opt, modify, ret, raise.
    destruct (aper_column MAG_APER _ _); [|discriminate].
    destruct (t l); [|discriminate]. rewrite Hbc. cbn.
    intros [= <-]. exists fr, xs, ys, es. cbn. rewrite Hbc. auto.
  - intros zp0 v. unfold zpfunc. cbn. split; ring.
Qed.

(** C9: fewer than two points left.  At any pass of the loop of [fitzp],
    when the clip of the pass keeps fewer than 2 points, the arrays [x] and
    [y] of that pass and its residuals are stored on the object and the run
    ends in [sys.exit]: [fitzp] does not return, and no zero-point is
    stored. *)
Theorem fitzp_exits_below_two_points s l0 s0 k l s1 fr :
  fitzp_setup s = (Ret l0, s0) ->
  passes k l0 s0 l s1 ->
  np.Qltb 0.001 (delta l) = true ->
  curve_fit zpfunc (x l) (y l) (yerr l) = Some fr ->
  (np.sum_flag (clip_flag (nsigma (cfg s))
                  (fit_residual [1%Q; popt fr] (x l) (y l))) < 2)%nat ->
  exists s',
    (forall fuel, (k < fuel)%nat -> fitzp fuel s = Some (Exc SystemExit, s')) /\
    self_x (fit s') = x l /\ self_y (fit s') = y l /\
    residual (fit s') = fit_residual [1; popt fr] (x l) (y l) /\
    zp (fit s') = zp (fit s).
Proof.
  intros Hset Hp Hd Hfit Hfew.
  pose proof (fitzp_setup_ret _ _ _ Hset) as (_ & _ & Hs0).
  destruct (passes_frame _ _ _ _ _ Hp) as [Hcfg Hzp].
  destruct (passes_bestc_pair _ _ _ _ _ Hp) as (b0 & b1 & Hbc);
    [subst s0; cbn; eauto|].
  assert (Hb1 : bestc (fit s1) !! 1%nat = Some b1) by now rewrite Hbc.
  assert (Hc : cfg s1 = cfg s) by (rewrite Hcfg; now subst s0).
  pose proof (loop_body_eq _ _ _ _ Hfit Hb1) as Hbody.
  unfold pass_flag, pass_residual in Hbody. rewrite Hc in Hbody.
  apply Nat.ltb_lt in Hfew. rewrite Hfew in Hbody.
  exists (pass_self fr l s1). split.
  - intros fuel Hfuel. unfold fitzp. rewrite Hset.
    rewrite (runs_fit_loop l0 s0 (k + 1) (Exc SystemExit, pass_self fr l s1) fuel);
      [reflexivity| |lia].
    eapply passes_runs; [exact Hp|]. now apply runs_raise.
  - cbn. repeat split. rewrite Hzp. now subst s0.
Qed.

End fitzp_claims.

(** ** The cross-match of [match_coords] *)

Section match_coords_claims.
Import getzp.
Context `{Sky}.

Lemma match_to_catalog_sky_length coords cat index dist2d :
  match_to_catalog_sky coords cat = Some (index, dist2d) ->
  length index = length coords /\ length dist2d = length coords.
Proof.
  destruct cat as [|c0 cat]; [discriminate|]. cbn.
  intros [= <- <-]. now rewrite !length_map.
Qed.

Lemma zero_row_is_zero like : is_zero_record (zero_row like).
Proof.
  unfold is_zero_record, zero_row; cbn.
  repeat split; apply Forall_forall; intros v Hv;
    apply list_elem_of_In, in_map_iff in Hv as (? & <- & _); reflexivity.
Qed.

Lemma star_flag_length mf pn matched :
  length mf = length pn -> length matched = length pn ->
  length (star_flag mf pn matched) = length pn.
Proof.
  intros Hm Ha. unfold star_flag, np.and_.
  rewrite !length_zip_with, !length_map. lia.
Qed.

Lemma goodarea_length k0 k1 k2 k3 matched :
  length (goodarea k0 k1 k2 k3 matched) = length matched.
Proof.
  unfold goodarea, np.and_. rewrite !length_zip_with, !length_map. lia.
Qed.

(** What [match_coords] assigns when it returns. *)
Lemma match_coords_ret self self' :
  match_coords self = (Ret tt, self') ->
  exists index dist2d found matched,
    match_to_catalog_sky (map (fun p => (RAJ2000 p, DEJ2000 p)) (pan self))
      (map (fun r => (ALPHA_J2000 r, DELTA_J2000 r)) (secat (se self)))
      = Some (index, dist2d) /\
    np.mask_assign (np_zeros (length (pan self)) (secat (se self)))
      (map (fun d => np.Qltb d (5 / 3600)) dist2d) found = Some matched /\
    matchflag (mt self') = map (fun d => np.Qltb d (5 / 3600)) dist2d /\
    matchedarray1 (mt self') = matched /\
    (fitflag (mt self') = star_flag (matchflag (mt self')) (pan self) matched \/
     exists k0 k1 k2 k3,
       fitflag (mt self') =
         np.and_ (star_flag (matchflag (mt self')) (pan self) matched)
                 (goodarea k0 k1 k2 k3 matched)) /\
    length (R (mt self')) = length (pan self) /\
    pan self' = pan self /\ cfg self' = cfg self /\ se self' = se self /\
    fit self' = fit self.
Proof.
  unfold match_coords, bind, get, lift_opt, ret, raise, modify.
  destruct (match_to_catalog_sky _ _) as [[index dist2d]|] eqn:Hm; [|discriminate].
  cbn [fst snd].
  destruct (np.take _ _) as [found|]; [|discriminate].
  rewrite length_map.
  destruct (np.mask_assign _ _ found) as [matched|] eqn:Ha; [|discriminate].
  assert (HR : forall f g h : pan_row -> Q,
    length (if String.eqb (filter (cfg self)) "R"
            then if useri (cfg self) then map f (pan self) else map g (pan self)
            else map h (pan self)) = length (pan self)).
  { intros f g h.
    destruct (String.eqb (filter (cfg self)) "R"), (useri (cfg self));
      apply length_map. }
  destruct (String.eqb (instrument (cfg self)) "i").
  - destruct (keepsection (se self) !! 0%nat) as [k0|]; [|discriminate].
    destruct (keepsection (se self) !! 1%nat) as [k1|]; [|discriminate].
    destruct (keepsection (se self) !! 2%nat) as [k2|]; [|discriminate].
    destruct (keepsection (se self) !! 3%nat) as [k3|]; [|discriminate].
    intros [= <-]. exists index, dist2d, found, matched. cbn.
    repeat split; eauto 10.
  - intros [= <-]. exists index, dist2d, found, matched. cbn.
    repeat split; eauto.
Qed.

Lemma match_coords_lengths self self' :
  match_coords self = (Ret tt, self') ->
  pan self' = pan self /\
  length (matchflag (mt self')) = length (pan self) /\
  length (fitflag (mt self')) = length (pan self) /\
  length (matchedarray1 (mt self')) = length (pan self) /\
  length (R (mt self')) = length (pan self).
Proof.
  intros Hret.
  apply match_coords_ret in Hret
    as (index & dist2d & found & matched & Hm & Ha & Hmf & Hma & Hff & HR & Hpan & _).
  apply match_to_catalog_sky_length in Hm as [_ Hd]. rewrite length_map in Hd.
  apply mask_assign_spec in Ha as (Hl & _ & _).
  unfold np_zeros in Hl. rewrite length_replicate in Hl.
  assert (Hlf : length (matchflag (mt self')) = length (pan self))
    by (rewrite Hmf, length_map; exact Hd).
  split; [exact Hpan|]. split; [exact Hlf|]. split; [|split].
  - destruct Hff as [-> | (k0 & k1 & k2 & k3 & ->)].
    + now apply star_flag_length.
    + unfold np.and_. rewrite length_zip_with, goodarea_length, star_flag_length; lia.
  - now rewrite Hma.
  - exact HR.
Qed.

(** C7: the arrays of the cross-match are aligned.  When [match_coords]
    returns, [matchflag], [fitflag] and [matchedarray1] have one entry per
    row of the Pan-STARRS table [self.pan], and [matchedarray1] holds a
    record of zeros wherever [matchflag] is false. *)
Theorem match_coords_aligned self self' :
  match_coords self = (Ret tt, self') ->
  pan self' = pan self /\
  length (matchflag (mt self')) = length (pan self) /\
  length (fitflag (mt self')) = length (pan self) /\
  length (matchedarray1 (mt self')) = length (pan self) /\
  forall i, matchflag (mt self') !! i = Some false ->
    exists r, matchedarray1 (mt self') !! i = Some r /\ is_zero_record r.
Proof.
  intros Hret.
  destruct (match_coords_lengths _ _ Hret) as (Hpan & Hlf & Hlff & Hlm & _).
  repeat (split; [assumption|]).
  apply match_coords_ret in Hret
    as (index & dist2d & found & matched & _ & Ha & Hmf & Hma & _).
  apply mask_assign_spec in Ha as (_ & _ & Hzero).
  intros i Hi. rewrite Hmf in Hi. rewrite Hma, (Hzero i Hi).
  assert (Hlt : (i < length (pan self))%nat).
  { apply lookup_lt_Some in Hi. rewrite <- Hmf, Hlf in Hi. exact Hi. }
  exists (zero_row (hd blank_row (secat (se self)))).
  split; [now apply lookup_replicate_2 | apply zero_row_is_zero].
Qed.

End match_coords_claims.

(** ** The header written by [update_header] *)

Section update_header_claims.
Import getzp.


End update_header_claims.

(** ** The pipeline of [getzp.getzp] *)

Section keeps_facts.
Context {St L A B : Type} (proj : St -> L).

Lemma kc_ret (a : A) : keeps proj (ret a).
Proof. now intros w r w' [= <- <-]. Qed.

Lemma kc_raise e : keeps proj (raise e : M St A).
Proof. now intros w r w' [= <- <-]. Qed.

Lemma kc_lift_opt name (o : option A) : keeps proj (lift_opt name o).
Proof. destruct o; [apply kc_ret | apply kc_raise]. Qed.

Lemma kc_bind (m : M St A) (k : A -> M St B) :
  keeps proj m -> (forall a, keeps proj (k a)) -> keeps proj (bind m k).
Proof.
  intros Hm Hk w r w'. unfold bind.
  destruct (m w) as [[a|e] w1] eqn:E.
  - intros Hr. rewrite (Hk a _ _ _ Hr). eapply Hm; eauto.
  - intros [= <- <-]. eapply Hm; eauto.
Qed.

Lemma kc_get : keeps proj (get : M St St).
Proof. now intros w r w' [= <- <-]. Qed.

Lemma kc_modify f : (forall w, proj (f w) = proj w) -> keeps proj (modify f).
Proof. intros Hf w r w' [= <- <-]. apply Hf. Qed.

End keeps_facts.

Lemma kc_fits_getdata {St L} (proj : St -> L) disk name :
  keeps proj (fits_getdata disk name).
Proof.
  unfold fits_getdata. destruct (disk !! name) as [[[im|] hd|]|];
    first [apply kc_ret | apply kc_raise].
Qed.

Lemma kc_fits_getheader {St L} (proj : St -> L) disk name :
  keeps proj (fits_getheader disk name).
Proof.
  unfold fits_getheader. destruct (disk !! name) as [[d hd|]|];
    first [apply kc_ret | apply kc_raise].
Qed.

Lemma kc_on_self {A} (m : M getzp.obj A) : keeps getzp.w_calls (getzp.on_self m).
Proof.
  intros w r w'. unfold getzp.on_self. destruct (m (getzp.w_self w)) as [r1 o].
  now intros [= <- <-].
Qed.

(** Unfolds a method into its binds and closes the branches. *)
Ltac keeps_tac :=
  repeat first
    [ apply kc_ret | apply kc_raise | apply kc_get | apply kc_lift_opt
    | apply kc_fits_getdata | apply kc_fits_getheader | apply kc_on_self
    | apply kc_modify; intros; reflexivity
    | apply kc_bind; [|intros ?]
    | match goal with
      | |- keeps _ (if ?b then _ else _) => destruct b
      | |- keeps _ (match ?o with Some _ => _ | None => _ end) => destruct o
      | |- keeps _ (match ?o with FitsFile _ _ => _ | RawFile _ => _ end) => destruct o
      end ].

Section pipeline_claims.
Import getzp.
Context `{Scipy} `{Sky}.

Lemma kc_runse : keeps w_calls runse.
Proof. unfold runse. keeps_tac. Qed.

Lemma kc_get_panstarrs : keeps w_calls get_panstarrs.
Proof. unfold get_panstarrs. keeps_tac. Qed.

Lemma kc_update_header : keeps w_calls update_header.
Proof. unfold update_header. keeps_tac. Qed.

Lemma call_run {A} name (m : M world A) w : call name m w = m (log_call name w).
Proof. reflexivity. Qed.

Lemma fitzp_setup_aligned s l0 s0 n :
  fitzp_setup s = (Ret l0, s0) ->
  length (fitflag (mt s)) = n -> length (R (mt s)) = n ->
  length (matchedarray1 (mt s)) = n ->
  aligned l0.
Proof.
  intros Hset Hf HR Hm. revert Hset.
  unfold fitzp_setup, bind, get, lift_opt, modify, ret, raise.
  destruct (polyfit1 _ _); [|discriminate].
  destruct (mag (cfg s) =? 0)%Z.
  { destruct (aper_column MAG_APER _ _) as [ya|] eqn:Hya; [|discriminate].
    destruct (aper_column MAGERR_APER _ _) as [ea|] eqn:Hea; [|discriminate].
    apply length_mapM in Hya, Hea.
    intros [= <- <-]. unfold aligned; cbn.
    rewrite !compress_length by congruence. auto. }
  destruct (mag (cfg s) =? 1)%Z.
  { intros [= <- <-]. unfold aligned; cbn.
    rewrite !compress_length by (rewrite ?length_map; congruence). auto. }
  destruct (mag (cfg s) =? 2)%Z; [|discriminate].
  intros [= <- <-]. unfold aligned; cbn.
  rewrite !compress_length by (rewrite ?length_map; congruence). auto.
Qed.

(** [fitzp] returns a result, given enough fuel, on arrays of one length. *)
Lemma fitzp_returns s n :
  length (fitflag (mt s)) = n -> length (R (mt s)) = n ->
  length (matchedarray1 (mt s)) = n ->
  exists fuel0 r, forall fuel, (fuel0 <= fuel)%nat -> fitzp fuel s = Some r.
Proof.
  intros Hf HR Hm. unfold fitzp.
  destruct (fitzp_setup s) as [[l0|e] s0] eqn:Hset; [|exists 0%nat; eauto].
  pose proof (fitzp_setup_aligned _ _ _ _ Hset Hf HR Hm) as Hal.
  destruct (fit_loop_fuel (length (x l0)) l0 s0 Hal (Nat.le_refl _)) as [r Hr].
  destruct (fit_loop_runs _ _ _ _ Hr) as (k & Hk & Hruns).
  exists (S (length (x l0))).
  destruct r as [[l|e] s2]; eexists; intros fuel Hfuel;
    rewrite (runs_fit_loop _ _ _ _ fuel Hruns) by lia; reflexivity.
Qed.

(** The first three stages. *)
Lemma getzp_first_stages w r w1 :
  (call "runse" runse;;;
   call "get_panstarrs" get_panstarrs;;;
   call "match_coords" (on_self match_coords))%py w = (r, w1) ->
  match r with
  | Ret _ =>
      w_calls w1 = w_calls w ++ ["runse"; "get_panstarrs"; "match_coords"] /\
      exists o, match_coords o = (Ret tt, w_self w1)
  | Exc _ =>
      w_calls w1 = w_calls w ++ ["runse"] \/
      w_calls w1 = w_calls w ++ ["runse"; "get_panstarrs"] \/
      w_calls w1 = w_calls w ++ ["runse"; "get_panstarrs"; "match_coords"]
  end.
Proof.
  unfold bind. rewrite call_run.
  destruct (runse (log_call "runse" w)) as [[[]|e1] wa] eqn:E1;
    apply kc_runse in E1; cbn in E1; [|intros [= <- <-]; auto].
  rewrite call_run.
  destruct (get_panstarrs (log_call "get_panstarrs" wa)) as [[[]|e2] wb] eqn:E2;
    apply kc_get_panstarrs in E2; cbn in E2; rewrite E1, <- app_assoc in E2;
    [|intros [= <- <-]; auto].
  rewrite call_run. unfold on_self.
  destruct (match_coords (w_self (log_call "match_coords" wb))) as [r3 o3] eqn:E3.
  intros [= <- <-].
  assert (Hc : w_calls (set_self o3 (log_call "match_coords" wb)) =
               w_calls w ++ ["runse"; "get_panstarrs"; "match_coords"])
    by (cbn; rewrite E2, <- app_assoc; reflexivity).
  destruct r3 as [[]|e3]; [split; [exact Hc | eexists; exact E3] | auto].
Qed.

(** C3, amended: the stages of [getzp.getzp].  Every run ends (enough fuel
    for the fit loop gives its result), and the stages it has entered are a
    non-empty initial segment of runse, get_panstarrs, match_coords, fitzp,
    update_header, entered in that order and once each; a run that returns
    has entered all five.  (A stage that raises or exits ends the run: the
    stages after it are not entered.) *)
Theorem getzp_stage_order w :
  exists fuel0 r w' done,
    (forall fuel, (fuel0 <= fuel)%nat -> getzp fuel w = Some (r, w')) /\
    w_calls w' = w_calls w ++ done /\
    done <> [] /\ done `prefix_of` stages /\
    (r = Ret tt -> done = stages).
Proof.
  unfold getzp.
  destruct ((call "runse" runse;;;
             call "get_panstarrs" get_panstarrs;;;
             call "match_coords" (on_self match_coords))%py w)
    as [[[]|e] w1] eqn:E; apply getzp_first_stages in E.
  - destruct E as [Hc (o & Hmatch)].
    destruct (match_coords_lengths _ _ Hmatch) as (Hpan & _ & Hf & Hm & HR).
    destruct (fitzp_returns (w_self (log_call "fitzp" w1)) _ Hf HR Hm)
      as (fuel0 & [rf sf] & Hfit).
    assert (Hc4 : w_calls (set_self sf (log_call "fitzp" w1)) =
                  w_calls w ++ ["runse"; "get_panstarrs"; "match_coords"; "fitzp"])
      by (cbn; rewrite Hc, <- app_assoc; reflexivity).
    destruct rf as [[]|ef].
    + destruct (call "update_header" update_header
                  (set_self sf (log_call "fitzp" w1))) as [ru wu] eqn:Eu.
      pose proof Eu as Hcu. rewrite call_run in Hcu.
      apply kc_update_header in Hcu. cbn in Hcu.
      rewrite Hc, <- !app_assoc in Hcu.
      exists fuel0, ru, wu, stages. split; [|split; [|split; [|split]]].
      * intros fuel Hfuel. now rewrite (Hfit fuel Hfuel), Eu.
      * exact Hcu.
      * discriminate.
      * reflexivity.
      * reflexivity.
    + exists fuel0, (Exc ef), (set_self sf (log_call "fitzp" w1)),
        ["runse"; "get_panstarrs"; "match_coords"; "fitzp"].
      split; [|split; [|split; [|split]]].
      * intros fuel Hfuel. now rewrite (Hfit fuel Hfuel).
      * exact Hc4.
      * discriminate.
      * now exists ["update_header"].
      * discriminate.
  - destruct E as [Hc | [Hc | Hc]];
      [exists 0%nat, (Exc e), w1, ["runse"]
      |exists 0%nat, (Exc e), w1, ["runse"; "get_panstarrs"]
      |exists 0%nat, (Exc e), w1, ["runse"; "get_panstarrs"; "match_coords"]];
      (split; [reflexivity|]); (split; [exact Hc|]);
      (split; [discriminate|]); (split; [|discriminate]);
      unfold stages; eexists; reflexivity.
Qed.

End pipeline_claims.

(** ** The cutout tool *)

Section cutouts_claims.
Import cutouts.
Context `{Services}.

Lemma find_occurs s sub : (-1 <? find s sub)%Z = true -> occurs sub s.
Proof.
  unfold find. destruct (String.index 0 sub s) as [n|] eqn:E; [|discriminate].
  intros _. exists n. now apply index_correct1 in E.
Qed.

Lemma not_occurs_find s sub : ~ occurs sub s -> (-1 <? find s sub)%Z = false.
Proof.
  intros Hno. destruct (-1 <? find s sub)%Z eqn:E; [|reflexivity].
  now apply find_occurs in E.
Qed.

(** C10: [cutouts.__init__] needs a marker in the file name.  For a name
    [rimage] in which none of '_R', '-R' and '-r' occurs the constructor
    raises: [split_string] was never assigned when it is read
    (UnboundLocalError), unless [WCS] has raised before.  No object is
    made. *)
Theorem init_needs_marker rimage w :
  ~ occurs "_R" rimage -> ~ occurs "-R" rimage -> ~ occurs "-r" rimage ->
  exists e w',
    __init__ rimage w = (Exc e, w') /\
    (is_Some (WCS (w_disk w) rimage) -> e = PyError "UnboundLocalError").
Proof.
  intros H1 H2 H3.
  unfold __init__, bind, get, modify, lift_opt, ret, raise.
  rewrite (not_occurs_find _ _ H1), (not_occurs_find _ _ H2),
          (not_occurs_find _ _ H3).
  destruct (WCS (w_disk w) rimage) as [wc|].
  - eexists _, _. split; [reflexivity|]. reflexivity.
  - eexists _, _. split; [reflexivity|]. intros [? [=]].
Qed.

(** *** The cache of [get_legacy_images] *)

Lemma retrieve_if_missing_spec url name w r w' :
  retrieve_if_missing url name w = (r, w') ->
  exists dl,
    w_downloads w' = w_downloads w ++ dl /\
    (dl = [] \/ dl = [url]) /\
    (is_Some (w_disk w !! name) -> dl = [] /\ w' = w /\ r = Ret tt) /\
    (r = Ret tt -> is_Some (w_disk w' !! name)) /\
    (forall other, is_Some (w_disk w !! other) -> is_Some (w_disk w' !! other)).
Proof.
  unfold retrieve_if_missing, bind, get, ret.
  destruct (bool_decide (is_Some (w_disk w !! name))) eqn:Hex.
  - apply bool_decide_eq_true in Hex. intros [= <- <-].
    exists []. rewrite app_nil_r. repeat split; auto.
  - apply bool_decide_eq_false in Hex.
    unfold urlretrieve, bind, modify, lift_opt, ret, raise.
    destruct (http_get url) as [body|]; intros [= <- <-]; exists [url]; cbn.
    + repeat split; auto; try (intros; contradiction).
      * intros _. rewrite lookup_insert_eq. eauto.
      * intros other Ho. apply lookup_insert_is_Some'. auto.
    + repeat split; auto; try (intros; contradiction). discriminate.
Qed.

Lemma retrieve_if_missing_cached url name w :
  is_Some (w_disk w !! name) -> retrieve_if_missing url name w = (Ret tt, w).
Proof.
  intros Hex. unfold retrieve_if_missing, bind, get, ret.
  now rewrite bool_decide_eq_true_2.
Qed.

Lemma read_legacy_cutout_spec f j mp w r w' :
  read_legacy_cutout f j mp w = (r, w') ->
  w' = w /\
  forall v, r = Ret v ->
    is_Some (w_disk w !! f) /\ (v = None \/ v = Some (f, j)).
Proof.
  unfold read_legacy_cutout, bind, get, lift_opt, ret, raise.
  destruct (w_disk w !! f) as [[[im|] hd|raw]|] eqn:E;
    try (intros [= <- <-]; split; [reflexivity|]; intros v; discriminate).
  destruct (im !! 1%nat) as [t1|];
    [|intros [= <- <-]; split; [reflexivity|]; intros v; discriminate].
  destruct (np.mean_is_zero t1); [|destruct mp];
    intros [= <- <-]; (split; [reflexivity|]); intros v [= <-]; eauto.
Qed.

Lemma legacy_urls_differ ra dec pixscale imsize ra' dec' pixscale' imsize' bands :
  legacy_jpeg_url ra dec pixscale imsize <>
  legacy_fits_url ra' dec' pixscale' imsize' bands.
Proof. unfold legacy_jpeg_url, legacy_fits_url. cbn. discriminate. Qed.

(** C5: the files on disk are the cache of [get_legacy_images].  In every
    call the URLs retrieved are among the two of the call; the jpeg is not
    retrieved when its file exists, nor the FITS cutout when its file
    exists.  A call that returns gives [None] or the two file names, which
    depend on galid, imsize and bands only; a second call with the same
    arguments then returns the same value and leaves the disk and the list
    of retrieved URLs as they are: it downloads nothing. *)
Theorem legacy_cache ra dec galid pixscale imsize bands makeplots w r w1 :
  get_legacy_images ra dec galid pixscale imsize bands makeplots w = (r, w1) ->
  exists dl,
    w_downloads w1 = w_downloads w ++ dl /\
    (is_Some (w_disk w !! legacy_jpeg_name galid imsize) ->
       legacy_jpeg_url ra dec pixscale imsize ∉ dl) /\
    (is_Some (w_disk w !! legacy_fits_name galid imsize bands) ->
       legacy_fits_url ra dec pixscale imsize bands ∉ dl) /\
    (forall v, r = Ret v ->
       (v = None \/
        v = Some (legacy_fits_name galid imsize bands,
                  legacy_jpeg_name galid imsize)) /\
       get_legacy_images ra dec galid pixscale imsize bands makeplots w1
         = (Ret v, w1)).
Proof.
  unfold get_legacy_images. unfold bind at 1.
  destruct (retrieve_if_missing _ (legacy_jpeg_name galid imsize) w)
    as [[[]|ej] wa] eqn:Ej;
    apply retrieve_if_missing_spec in Ej as (dj & Hdj & Hcj & Hexj & Hretj & Hkeepj).
  2:{ intros [= <- <-]. exists dj. split; [exact Hdj|].
      split; [intros Hex; destruct (Hexj Hex) as (_ & _ & [=])|].
      split; [|intros v; discriminate].
      intros _. destruct Hcj as [-> | ->]; [apply not_elem_of_nil|].
      rewrite list_elem_of_singleton. intros E. symmetry in E.
      now apply legacy_urls_differ in E. }
  unfold bind at 1.
  destruct (retrieve_if_missing _ (legacy_fits_name galid imsize bands) wa)
    as [[[]|ef] wb] eqn:Ef;
    pose proof Ef as Ef';
    apply retrieve_if_missing_spec in Ef as (df & Hdf & Hcf & Hexf & Hretf & Hkeepf).
  2:{ intros [= <- <-]. exists (dj ++ df).
      split; [rewrite Hdf, Hdj; apply eq_sym, app_assoc|].
      split; [|split; [|intros v; discriminate]].
      - intros Hex. destruct (Hexj Hex) as (-> & _ & _). cbn.
        destruct Hcf as [-> | ->]; [apply not_elem_of_nil|].
        rewrite list_elem_of_singleton. apply legacy_urls_differ.
      - intros Hex. destruct (Hexf (Hkeepj _ Hex)) as (_ & _ & [=]). }
  intros Hread. pose proof Hread as Hread'.
  apply read_legacy_cutout_spec in Hread as [-> Hv].
  exists (dj ++ df). split; [rewrite Hdf, Hdj; apply eq_sym, app_assoc|].
  split; [|split].
  - intros Hex. destruct (Hexj Hex) as (-> & _ & _). cbn.
    destruct Hcf as [-> | ->]; [apply not_elem_of_nil|].
    rewrite list_elem_of_singleton. apply legacy_urls_differ.
  - intros Hex. destruct (Hexf (Hkeepj _ Hex)) as (-> & _ & _).
    rewrite app_nil_r.
    destruct Hcj as [-> | ->]; [apply not_elem_of_nil|].
    rewrite list_elem_of_singleton. intros E. symmetry in E.
    now apply legacy_urls_differ in E.
  - intros v ->. destruct (Hv v eq_refl) as [_ Hnames]. split; [exact Hnames|].
    unfold bind.
    rewrite retrieve_if_missing_cached by (apply Hkeepf, Hretj; reflexivity).
    rewrite retrieve_if_missing_cached by (apply Hretf; reflexivity).
    exact Hread'.
Qed.

(** *** The stages of [runall] *)

Lemma kc_service {L} (proj : world -> L) op :
  (forall o d w, proj (set_disk d (set_self o w)) = proj w) ->
  keeps proj (service op).
Proof.
  intros Hp w r w'. unfold service.
  destruct (op (w_self w, w_disk w)) as [r1 od]. intros [= <- <-]. apply Hp.
Qed.

Lemma kc_get_legacy_images ra dec gid px imsize bands mp :
  keeps w_calls (get_legacy_images ra dec gid px imsize bands mp).
Proof.
  unfold get_legacy_images, retrieve_if_missing, urlretrieve, read_legacy_cutout.
  keeps_tac.
Qed.

Lemma kc_stage_calls name m :
  In (name, m)
     [("get_halpha_cutouts"%string, get_halpha_cutouts);
      ("get_image_size"%string, get_image_size);
      ("get_RADEC"%string, get_RADEC); ("get_galid"%string, get_galid);
      ("download_legacy"%string, download_legacy);
      ("load_legacy_images"%string, load_legacy_images);
      ("download_unwise_images"%string, download_unwise_images);
      ("load_unwise_images"%string, load_unwise_images);
      ("get_galex_image"%string, get_galex_image);
      ("plotallcutouts"%string, plotallcutouts)] ->
  keeps w_calls m.
Proof.
  cbn. intros Hin.
  repeat (destruct Hin as [[= <- <-]|Hin]); try contradiction;
    try (apply kc_service; reflexivity).
  - unfold get_halpha_cutouts. keeps_tac.
  - unfold get_image_size. keeps_tac.
  - unfold get_RADEC. keeps_tac.
  - unfold get_galid. keeps_tac.
  - unfold download_legacy, unpack_pair.
    repeat first [apply kc_get_legacy_images | progress keeps_tac].
  - unfold load_legacy_images. keeps_tac.
Qed.

Lemma seq_calls_order l w r w' :
  (forall n m, In (n, m) l -> keeps w_calls m) -> l <> [] ->
  seq_calls l w = (r, w') ->
  exists done,
    w_calls w' = w_calls w ++ done /\ done <> [] /\
    done `prefix_of` (map fst l) /\ (r = Ret tt -> done = map fst l).
Proof.
  revert w. induction l as [|[n m] l IH]; intros w Hk Hne; [contradiction|].
  assert (Hm : keeps w_calls m) by (apply (Hk n); now left).
  destruct l as [|p l].
  - cbn [seq_calls]. unfold call, bind, modify. intros Hr.
    apply Hm in Hr. cbn in Hr. exists [n].
    repeat split; auto; discriminate.
  - change (seq_calls ((n, m) :: p :: l))
      with (call n m;;; seq_calls (p :: l))%py.
    unfold bind at 1. unfold call at 1, bind at 1, modify.
    destruct (m (log_call n w)) as [[[]|e] w1] eqn:E; apply Hm in E; cbn in E.
    + intros Hr. apply IH in Hr as (done & Hc & _ & Hpre & Hall);
        [|intros n' m' Hin; apply (Hk n'); now right|discriminate].
      exists (n :: done). rewrite Hc, E, <- app_assoc. cbn.
      repeat split; [discriminate|now apply prefix_cons|].
      intros Hret. now rewrite (Hall Hret).
    + intros [= <- <-]. exists [n]. rewrite E.
      repeat split; [discriminate| |discriminate].
      cbn. now exists (fst p :: map fst l).
Qed.

Lemma get_legacy_images_downloads ra dec gid px imsize bands mp w r w1 :
  get_legacy_images ra dec gid px imsize bands mp w = (r, w1) ->
  exists dj df,
    w_downloads w1 = w_downloads w ++ dj ++ df /\
    (dj = [] \/ dj = [legacy_jpeg_url ra dec px imsize]) /\
    (df = [] \/ df = [legacy_fits_url ra dec px imsize bands]) /\
    (is_Some (w_disk w !! legacy_jpeg_name gid imsize) -> dj = []) /\
    (forall v, r = Ret v -> is_Some (w_disk w1 !! legacy_jpeg_name gid imsize)).
Proof.
  unfold get_legacy_images. unfold bind at 1.
  destruct (retrieve_if_missing _ (legacy_jpeg_name gid imsize) w)
    as [[[]|ej] wa] eqn:Ej;
    apply retrieve_if_missing_spec in Ej as (dj & Hdj & Hcj & Hexj & Hretj & _).
  2:{ intros [= <- <-]. exists dj, []. rewrite app_nil_r.
      repeat split; auto; try discriminate;
        try (intros Hex; now destruct (Hexj Hex)). }
  unfold bind at 1.
  destruct (retrieve_if_missing _ (legacy_fits_name gid imsize bands) wa)
    as [[[]|ef] wb] eqn:Ef;
    apply retrieve_if_missing_spec in Ef as (df & Hdf & Hcf & _ & _ & Hkeepf).
  2:{ intros [= <- <-]. exists dj, df. rewrite Hdf, Hdj, <- app_assoc.
      repeat split; auto; try discriminate;
        try (intros Hex; now destruct (Hexj Hex)). }
  intros Hread. apply read_legacy_cutout_spec in Hread as [-> _].
  exists dj, df. rewrite Hdf, Hdj, <- app_assoc.
  repeat split; auto; try (intros Hex; now destruct (Hexj Hex)).
Qed.

Ltac sublist_tac :=
  cbn; repeat first [apply sublist_nil | apply sublist_skip | apply sublist_cons].

(** [download_legacy] retrieves, in this order and each at most once, the
    jpeg and the g, r and z cutouts. *)
Lemma download_legacy_downloads w r w' :
  download_legacy w = (r, w') ->
  exists dl,
    w_downloads w' = w_downloads w ++ dl /\
    dl `sublist_of` legacy_urls (w_self w).
Proof.
  unfold download_legacy, legacy_urls.
  unfold bind, get, modify, unpack_pair, lift_opt, ret, raise.
  set (imsize := xsize_arcsec (size (w_self w)) / LEGACY_PIXSCALE).
  set (gid := str_hval str_float (galid (w_self w))).
  destruct (get_legacy_images _ _ gid 1 imsize "g" false _) as [[vg|eg] w1] eqn:E1;
    apply get_legacy_images_downloads in E1
      as (dj1 & df1 & Hd1 & Hj1 & Hf1 & _ & Hex1); cbn in Hd1.
  2:{ intros [= <- <-]. exists (dj1 ++ df1). split; [exact Hd1|].
      destruct Hj1 as [-> | ->], Hf1 as [-> | ->]; sublist_tac. }
  destruct vg as [g|].
  2:{ intros [= <- <-]. exists (dj1 ++ df1). split; [exact Hd1|].
      destruct Hj1 as [-> | ->], Hf1 as [-> | ->]; sublist_tac. }
  specialize (Hex1 _ eq_refl).
  destruct (get_legacy_images _ _ gid 1 imsize "r" false _) as [[vr|er] w2] eqn:E2;
    apply get_legacy_images_downloads in E2
      as (dj2 & df2 & Hd2 & _ & Hf2 & Hc2 & Hex2); cbn in Hd2, Hc2;
    rewrite (Hc2 Hex1) in Hd2; cbn in Hd2.
  2:{ intros [= <- <-]. exists (dj1 ++ df1 ++ df2).
      split; [rewrite Hd2, Hd1, <- !app_assoc; reflexivity|].
      destruct Hj1 as [-> | ->], Hf1 as [-> | ->], Hf2 as [-> | ->]; sublist_tac. }
  destruct vr as [rr|].
  2:{ intros [= <- <-]. exists (dj1 ++ df1 ++ df2).
      split; [rewrite Hd2, Hd1, <- !app_assoc; reflexivity|].
      destruct Hj1 as [-> | ->], Hf1 as [-> | ->], Hf2 as [-> | ->]; sublist_tac. }
  specialize (Hex2 _ eq_refl).
  destruct (get_legacy_images _ _ gid 1 imsize "z" false _) as [[vz|ez] w3] eqn:E3;
    apply get_legacy_images_downloads in E3
      as (dj3 & df3 & Hd3 & _ & Hf3 & Hc3 & _); cbn in Hd3, Hc3;
    rewrite (Hc3 Hex2) in Hd3; cbn in Hd3.
  2:{ intros [= <- <-]. exists (dj1 ++ df1 ++ df2 ++ df3).
      split; [rewrite Hd3, Hd2, Hd1, <- !app_assoc; reflexivity|].
      destruct Hj1 as [-> | ->], Hf1 as [-> | ->], Hf2 as [-> | ->],
               Hf3 as [-> | ->]; sublist_tac. }
  assert (Hend : w_downloads w3 = w_downloads w ++ dj1 ++ df1 ++ df2 ++ df3)
    by (rewrite Hd3, Hd2, Hd1, <- !app_assoc; reflexivity).
  assert (Hsub : dj1 ++ df1 ++ df2 ++ df3 `sublist_of`
                 [legacy_jpeg_url (ra (w_self w)) (dec (w_self w)) 1 imsize;
                  legacy_fits_url (ra (w_self w)) (dec (w_self w)) 1 imsize "g";
                  legacy_fits_url (ra (w_self w)) (dec (w_self w)) 1 imsize "r";
                  legacy_fits_url (ra (w_self w)) (dec (w_self w)) 1 imsize "z"])
    by (destruct Hj1 as [-> | ->], Hf1 as [-> | ->], Hf2 as [-> | ->],
                 Hf3 as [-> | ->]; sublist_tac).
  destruct vz as [z|]; intros [= <- <-]; exists (dj1 ++ df1 ++ df2 ++ df3);
    split; assumption.
Qed.

Lemma cutouts_call_run {A} name (m : M world A) w :
  call name m w = m (log_call name w).
Proof. reflexivity. Qed.

Lemma kc_call {L} (proj : world -> L) name (m : M world unit) :
  (forall w, proj (log_call name w) = proj w) ->
  keeps proj m -> keeps proj (call name m).
Proof.
  intros Hl Hm. unfold call. apply kc_bind; [now apply kc_modify | now intros _].
Qed.

Lemma kc_dl_get_halpha_cutouts : keeps w_downloads get_halpha_cutouts.
Proof. unfold get_halpha_cutouts. keeps_tac. Qed.
Lemma kc_dl_get_image_size : keeps w_downloads get_image_size.
Proof. unfold get_image_size. keeps_tac. Qed.
Lemma kc_dl_get_RADEC : keeps w_downloads get_RADEC.
Proof. unfold get_RADEC. keeps_tac. Qed.
Lemma kc_dl_get_galid : keeps w_downloads get_galid.
Proof. unfold get_galid. keeps_tac. Qed.
Lemma kc_dl_load_legacy_images : keeps w_downloads load_legacy_images.
Proof. unfold load_legacy_images. keeps_tac. Qed.

(** The stages after [download_legacy]. *)
Lemma kc_dl_later_stages :
  keeps w_downloads
    (call "load_legacy_images" load_legacy_images;;;
     call "download_unwise_images" download_unwise_images;;;
     call "load_unwise_images" load_unwise_images;;;
     call "get_galex_image" get_galex_image;;;
     call "plotallcutouts" plotallcutouts)%py.
Proof.
  apply kc_bind;
    [apply kc_call; [reflexivity | apply kc_dl_load_legacy_images] | intros _].
  do 3 (apply kc_bind;
    [apply kc_call; [reflexivity | apply kc_service; reflexivity] | intros _]).
  apply kc_call; [reflexivity | apply kc_service; reflexivity].
Qed.

Lemma runall_downloads w r w' :
  runall w = (r, w') ->
  exists dl o,
    w_downloads w' = w_downloads w ++ dl /\ dl `sublist_of` legacy_urls o.
Proof.
  assert (Hnone : forall w0 : world,
    w_downloads w0 = w_downloads w ->
    exists dl o, w_downloads w0 = w_downloads w ++ dl /\
                 dl `sublist_of` legacy_urls o).
  { intros w0 Hw0. exists [], (w_self w). rewrite app_nil_r.
    split; [exact Hw0 | apply sublist_nil_l]. }
  unfold runall. unfold bind at 1.
  destruct (call "get_halpha_cutouts" get_halpha_cutouts w) as [[[]|e1] w1] eqn:E1;
    apply (kc_call w_downloads) in E1;
    try reflexivity; try apply kc_dl_get_halpha_cutouts;
    [|intros [= <- <-]; now apply Hnone].
  unfold bind at 1.
  destruct (call "get_image_size" get_image_size w1) as [[[]|e2] w2] eqn:E2;
    apply (kc_call w_downloads) in E2;
    try reflexivity; try apply kc_dl_get_image_size;
    [|intros [= <- <-]; apply Hnone; congruence].
  unfold bind at 1.
  destruct (call "get_RADEC" get_RADEC w2) as [[[]|e3] w3] eqn:E3;
    apply (kc_call w_downloads) in E3;
    try reflexivity; try apply kc_dl_get_RADEC;
    [|intros [= <- <-]; apply Hnone; congruence].
  unfold bind at 1.
  destruct (call "get_galid" get_galid w3) as [[[]|e4] w4] eqn:E4;
    apply (kc_call w_downloads) in E4;
    try reflexivity; try apply kc_dl_get_galid;
    [|intros [= <- <-]; apply Hnone; congruence].
  unfold bind at 1.
  destruct (call "download_legacy" download_legacy w4) as [[[]|e5] w5] eqn:E5;
    rewrite cutouts_call_run in E5;
    apply download_legacy_downloads in E5 as (dl & Hd & Hsub);
    cbn [log_call w_downloads w_self] in Hd, Hsub.
  - intros Hrest. apply kc_dl_later_stages in Hrest.
    exists dl, (w_self w4). split; [congruence | exact Hsub].
  - intros [= <- <-]. exists dl, (w_self w4). split; [congruence | exact Hsub].
Qed.

(** C8, amended: the stages of [cutouts.runall].  The stages a run has
    entered are a non-empty initial segment of: get_halpha_cutouts,
    get_image_size, get_RADEC, get_galid (the local FITS products, the
    image size and the sky position), download_legacy, load_legacy_images
    (Legacy Survey), download_unwise_images, load_unwise_images (unWISE),
    get_galex_image (GALEX), plotallcutouts (the figure): in that order,
    once each; a run that returns has entered all ten.  From the Legacy
    Survey it retrieves, in this order and each at most once, the jpeg
    and the g, r and z cutouts of one position.  (A stage that raises ends
    the run: the stages after it are not entered.) *)
Theorem runall_stage_order w :
  exists r w' done dl o,
    runall w = (r, w') /\
    w_calls w' = w_calls w ++ done /\
    done <> [] /\ done `prefix_of` stages /\
    (r = Ret tt -> done = stages) /\
    w_downloads w' = w_downloads w ++ dl /\
    dl `sublist_of` legacy_urls o.
Proof.
  destruct (runall w) as [r w'] eqn:E.
  destruct (runall_downloads _ _ _ E) as (dl & o & Hd & Hsub).
  change runall with
    (seq_calls
       [("get_halpha_cutouts"%string, get_halpha_cutouts);
        ("get_image_size"%string, get_image_size);
        ("get_RADEC"%string, get_RADEC); ("get_galid"%string, get_galid);
        ("download_legacy"%string, download_legacy);
        ("load_legacy_images"%string, load_legacy_images);
        ("download_unwise_images"%string, download_unwise_images);
        ("load_unwise_images"%string, load_unwise_images);
        ("get_galex_image"%string, get_galex_image);
        ("plotallcutouts"%string, plotallcutouts)]) in E.
  apply seq_calls_order in E as (done & Hc & Hne & Hpre & Hall);
    [|apply kc_stage_calls|discriminate].
  exists r, w', done, dl, o. repeat split; assumption.
Qed.

End cutouts_claims.

(** ** The claims at concrete data *)

Module witnesses.
Import getzp examples.

Lemma fit_loop_terminates_witness :
  aligned (locals_of outlier_start) /\
  exists k r,
    (k <= 6)%nat /\
    runs (locals_of outlier_start) (snd outlier_start) k r /\
    forall fuel, (6 <= fuel)%nat ->
      fit_loop fuel (locals_of outlier_start) (snd outlier_start) = Some r.
Proof.
  assert (Hal : aligned (locals_of outlier_start)) by (split; reflexivity).
  split; [exact Hal|].
  exact (@fit_loop_terminates wls_scipy (locals_of outlier_start)
           (snd outlier_start) Hal).
Defined.

Lemma clip_retains_exactly_witness :
  aligned (locals_of outlier_start) /\
  loop_body (locals_of outlier_start) (snd outlier_start) = outlier_pass1 /\
  x (locals_of outlier_pass1) = [15; 16; 15.5; 14] /\
  zip (zip (x (locals_of outlier_pass1)) (y (locals_of outlier_pass1)))
      (yerr (locals_of outlier_pass1)) =
    (base.filter
       (fun p => within_clip 2 (residual (fit (snd outlier_pass1))) p.2)
       (zip (zip (zip [15; 16; 15.5; 14; 16.5] [-10; -9.01; -9.5; -11.02; -5])
                 [0.01; 0.01; 0.01; 0.01; 0.01])
            (residual (fit (snd outlier_pass1))))).*1.
Proof.
  assert (Hal : aligned (locals_of outlier_start)) by (split; reflexivity).
  assert (Hb : loop_body (locals_of outlier_start) (snd outlier_start) =
               (Ret (locals_of outlier_pass1), snd outlier_pass1))
    by (vm_compute; reflexivity).
  split; [exact Hal|]. split; [vm_compute; reflexivity|].
  split; [reflexivity|].
  exact (proj1 (proj2 (@clip_retains_exactly wls_scipy _ _ _ _ Hal Hb))).
Defined.

Lemma fitzp_exits_below_two_points_witness :
  exists s',
    fitzp 3 outlier_obj = Some (Exc SystemExit, s') /\
    self_x (fit s') = [15; 16; 15.5] /\ self_y (fit s') = [-10; -9.01; -9.5] /\
    zp (fit s') = 0.
Proof.
  destruct (@fitzp_exits_below_two_points wls_scipy outlier_obj
              (locals_of outlier_start) (snd outlier_start) 2
              (locals_of outlier_pass2) (snd outlier_pass2)
              {| popt := -7501 # 300; pcov := 1 # 90000 |})
    as (s' & Hrun & Hx & Hy & _ & Hzp).
  - vm_compute; reflexivity.
  - eapply passes_S; [vm_compute; reflexivity | vm_compute; reflexivity |].
    eapply passes_S; [vm_compute; reflexivity | vm_compute; reflexivity |].
    apply passes_0.
  - vm_compute; reflexivity.
  - vm_compute. reflexivity.
  - vm_compute. lia.
  - exists s'. split; [apply Hrun; lia|]. rewrite Hx, Hy, Hzp. repeat split.
Defined.

Lemma zp_is_additive_offset_witness :
  exists s',
    fitzp 5 field_matched = Some (Ret tt, s') /\
    bestc (fit s') = [1; -24.787] /\ zp (fit s') = -24.787.
Proof.
  destruct (fitzp 5 field_matched) as [[r s']|] eqn:E;
    [|vm_compute in E; discriminate].
  assert (Hr : r = Ret tt)
    by (apply (f_equal (fun o => match o with Some (r0, _) => r0 | None => r end))
          in E; rewrite <- E; vm_compute; reflexivity).
  assert (Hz : zp (fit s') = -24.787)
    by (apply (f_equal (fun o => match o with
                                 | Some (_, s0) => zp (fit s0)
                                 | None => 0
                                 end)) in E;
        cbn beta iota in E; rewrite <- E; vm_compute; reflexivity).
  subst r. exists s'. split; [reflexivity|].
  destruct (proj1 (proj2 (proj2 (@zp_is_additive_offset wls_scipy))) _ _ _ E)
    as (fr & _ & _ & _ & _ & Hbc & Hzp).
  split; [|exact Hz]. rewrite Hbc. congruence.
Defined.

Lemma match_coords_aligned_witness :
  match_coords field_obj = (Ret tt, field_matched) /\
  length (pan field_obj) = 5%nat /\
  matchflag (mt field_matched) = [true; true; false; true; true] /\
  length (fitflag (mt field_matched)) = length (pan field_obj) /\
  length (matchedarray1 (mt field_matched)) = length (pan field_obj) /\
  exists r, matchedarray1 (mt field_matched) !! 2%nat = Some r /\ is_zero_record r.
Proof.
  assert (Hm : match_coords field_obj = (Ret tt, field_matched))
    by (vm_compute; reflexivity).
  destruct (@match_coords_aligned flat_sky field_obj field_matched Hm)
    as (_ & _ & Hf & Ha & Hz).
  split; [exact Hm|]. split; [reflexivity|]. split; [reflexivity|].
  split; [exact Hf|]. split; [exact Ha|].
  apply (Hz 2%nat). reflexivity.
Defined.


Lemma legacy_cache_witness :
  exists w1 v,
    @cutouts.get_legacy_images in_footprint 208.1 40.3 "VFID0001" 1 72 "g" false
      cutout_world = (Ret v, w1) /\
    v = Some ("cutouts/VFID0001-legacy-72-g.fits"%string,
              "cutouts/VFID0001-legacy-72.jpg"%string) /\
    length (cutouts.w_downloads w1) = 2%nat /\
    @cutouts.get_legacy_images in_footprint 208.1 40.3 "VFID0001" 1 72 "g" false
      w1 = (Ret v, w1).
Proof.
  destruct (@cutouts.get_legacy_images in_footprint 208.1 40.3 "VFID0001" 1 72
              "g" false cutout_world) as [r w1] eqn:E.
  assert (Hr : r = Ret (Some ("cutouts/VFID0001-legacy-72-g.fits"%string,
                              "cutouts/VFID0001-legacy-72.jpg"%string)))
    by (apply (f_equal fst) in E; cbn [fst] in E; rewrite <- E;
        vm_compute; reflexivity).
  assert (Hd : length (cutouts.w_downloads w1) = 2%nat)
    by (apply (f_equal (fun p => length (cutouts.w_downloads (snd p)))) in E;
        cbn [snd] in E; rewrite <- E; vm_compute; reflexivity).
  destruct (@legacy_cache in_footprint _ _ _ _ _ _ _ _ _ _ E)
    as (dl & _ & _ & _ & Hv).
  destruct (Hv _ Hr) as [_ Hagain].
  eexists w1, _. rewrite Hr. repeat split; [exact Hd | exact Hagain].
Defined.

Lemma init_needs_marker_witness :
  ~ cutouts.occurs "_R" "ngc4254.fits" /\
  ~ cutouts.occurs "-R" "ngc4254.fits" /\
  ~ cutouts.occurs "-r" "ngc4254.fits" /\
  exists w',
    @cutouts.__init__ in_footprint "ngc4254.fits" cutout_world
      = (Exc (PyError "UnboundLocalError"), w').
Proof.
  assert (H1 : ~ cutouts.occurs "_R" "ngc4254.fits")
    by (intros [n Hn];
        exact (index_correct3 0 n "_R" "ngc4254.fits" eq_refl
                 ltac:(discriminate) (Nat.le_0_l n) Hn)).
  assert (H2 : ~ cutouts.occurs "-R" "ngc4254.fits")
    by (intros [n Hn];
        exact (index_correct3 0 n "-R" "ngc4254.fits" eq_refl
                 ltac:(discriminate) (Nat.le_0_l n) Hn)).
  assert (H3 : ~ cutouts.occurs "-r" "ngc4254.fits")
    by (intros [n Hn];
        exact (index_correct3 0 n "-r" "ngc4254.fits" eq_refl
                 ltac:(discriminate) (Nat.le_0_l n) Hn)).
  repeat (split; [assumption|]).
  destruct (@init_needs_marker in_footprint "ngc4254.fits" cutout_world H1 H2 H3)
    as (e & w' & Hrun & He).
  exists w'. rewrite <- He; [exact Hrun|]. vm_compute. eauto.
Defined.

End witnesses.

(** ** Where the specification and the code part *)

Module counterexamples.
Import getzp examples.

(** C3 as stated: every run enters all five stages.  On the image with a
    single matched star the clip of the first pass keeps no point, [fitzp]
    calls [sys.exit], and [update_header] is never entered. *)
Lemma getzp_skips_update_header :
  (exists w',
     @getzp wls_scipy flat_sky 10 sparse_world = Some (Exc SystemExit, w') /\
     w_calls w' = ["runse"; "get_panstarrs"; "match_coords"; "fitzp"]) /\
  ~ (forall (sc : Scipy) (sk : Sky) fuel w r w',
       @getzp sc sk fuel w = Some (r, w') -> w_calls w' = w_calls w ++ stages).
Proof.
  destruct (@getzp wls_scipy flat_sky 10 sparse_world) as [[r w']|] eqn:E;
    [|vm_compute in E; discriminate].
  assert (Hr : r = Exc SystemExit)
    by (apply (f_equal (fun o => match o with Some (r0, _) => r0 | None => r end)) in E;
        rewrite <- E; vm_compute; reflexivity).
  assert (Hc : w_calls w' = ["runse"; "get_panstarrs"; "match_coords"; "fitzp"])
    by (apply (f_equal (fun o => match o with
                                 | Some (_, w0) => w_calls w0
                                 | None => []
                                 end)) in E;
        cbn beta iota in E; rewrite <- E; vm_compute; reflexivity).
  split.
  - exists w'. subst r. split; [reflexivity | exact Hc].
  - intros Hall. specialize (Hall wls_scipy flat_sky 10%nat sparse_world r w' E).
    rewrite Hc in Hall. discriminate.
Qed.

(** C8 as stated: every run enters all ten stages.  For a position off
    the Legacy Survey footprint the g cutout is empty, [get_legacy_images]
    returns [None], the unpacking in [download_legacy] raises TypeError, and
    neither unWISE nor GALEX is asked, nor the figure made. *)
Lemma runall_stops_at_empty_cutout :
  (exists w',
     @cutouts.runall off_footprint ready_world = (Exc (PyError "TypeError"), w') /\
     cutouts.w_calls w' =
       ["get_halpha_cutouts"; "get_image_size"; "get_RADEC"; "get_galid";
        "download_legacy"]) /\
  ~ (forall (sv : cutouts.Services) w r w',
       @cutouts.runall sv w = (r, w') ->
       cutouts.w_calls w' = cutouts.w_calls w ++ cutouts.stages).
Proof.
  destruct (@cutouts.runall off_footprint ready_world) as [r w'] eqn:E.
  assert (Hr : r = Exc (PyError "TypeError"))
    by (apply (f_equal fst) in E; cbn [fst] in E; rewrite <- E;
        vm_compute; reflexivity).
  assert (Hc : cutouts.w_calls w' =
               ["get_halpha_cutouts"; "get_image_size"; "get_RADEC"; "get_galid";
                "download_legacy"])
    by (apply (f_equal (fun p => cutouts.w_calls (snd p))) in E;
        cbn [snd] in E; rewrite <- E; vm_compute; reflexivity).
  split.
  - exists w'. subst r. split; [reflexivity | exact Hc].
  - intros Hall. specialize (Hall off_footprint ready_world r w' E).
    rewrite Hc in Hall. discriminate.
Qed.

End counterexamples.

(** * Further properties of the code *)

(** ** Arrays *)

Section more_numpy_facts.
Context {A B : Type}.

Lemma lookup_map (f : A -> B) (l : list A) i : map f l !! i = f <$> (l !! i).
Proof. revert i; induction l as [|a l IH]; intros [|i]; cbn; auto. Qed.

Lemma compress_Forall (P : A -> Prop) mask (a : list A) :
  Forall P a -> Forall P (np.compress mask a).
Proof.
  intros Ha. revert mask. induction Ha as [|v a Hv Ha IH]; intros [|[] mask]; cbn;
    auto.
Qed.

Lemma take_all (a : list A) idx :
  Forall (fun i => (i < length a)%nat) idx ->
  exists rows, np.take a idx = Some rows /\ length rows = length idx /\
    forall k i, idx !! k = Some i -> rows !! k = a !! i.
Proof.
  unfold np.take. induction 1 as [|i idx Hi _ (rows & Hr & Hl & Hk)].
  - exists []. repeat split. intros k i. now rewrite lookup_nil.
  - destruct (lookup_lt_is_Some_2 a i Hi) as [v Hv].
    exists (v :: rows). cbn. rewrite Hv. cbn. rewrite Hr. cbn.
    repeat split; [now rewrite Hl|].
    intros [|k] j; cbn; [intros [= <-]; auto | apply Hk].
Qed.

Lemma take_compress (a : list A) mask idx rows :
  np.take a idx = Some rows ->
  np.take a (np.compress mask idx) = Some (np.compress mask rows).
Proof.
  unfold np.take. revert mask rows. induction idx as [|i idx IH]; intros mask rows.
  - cbn. intros [= <-]. now destruct mask.
  - cbn. destruct (a !! i) as [v|] eqn:Hv; [|discriminate]. cbn.
    destruct (mapM (fun i => a !! i) idx) as [rows'|] eqn:Hr; [|discriminate].
    cbn. intros [= <-]. destruct mask as [|[] mask]; cbn; auto.
    all: try (rewrite Hv; cbn; now rewrite (IH mask rows' eq_refl)).
Qed.

Lemma mask_assign_compress (a : list A) mask full :
  length mask = length a -> length full = length a ->
  exists a', np.mask_assign a mask (np.compress mask full) = Some a' /\
    forall i, mask !! i = Some true -> a' !! i = full !! i.
Proof.
  revert mask full. induction a as [|v a IH]; intros [|b mask] [|f full];
    cbn; try discriminate.
  - intros _ _. exists []. split; auto.
  - intros [= Hm] [= Hf]. destruct (IH mask full Hm Hf) as (a' & Ha & Hi).
    destruct b; rewrite Ha; cbn.
    + exists (f :: a'). split; auto. intros [|i]; cbn; auto.
    + exists (v :: a'). split; auto. intros [|i]; cbn; [discriminate|auto].
Qed.

End more_numpy_facts.

Lemma compress_sublist {A} mask (a : list A) : np.compress mask a `sublist_of` a.
Proof.
  revert a; induction mask as [|b mask IH]; intros [|v a]; cbn;
    try apply sublist_nil_l.
  destruct b; [apply sublist_skip | apply sublist_cons]; apply IH.
Qed.

(** ** [runse] *)

Section runse_facts.
Import getzp.
Context `{Sky}.



Lemma runse_ret w w' :
  runse w = (Ret tt, w') ->
  exists cat minRA maxRA minDEC maxDEC,
    py_min (map ALPHA_J2000 cat) = Some minRA /\
    py_max (map ALPHA_J2000 cat) = Some maxRA /\
    py_min (map DELTA_J2000 cat) = Some minDEC /\
    py_max (map DELTA_J2000 cat) = Some maxDEC /\
    w' = set_self (with_se
           {| keepsection := if String.eqb (instrument (cfg (w_self w))) "i"
                             then [1000; 5000; 0; 4000]
                             else keepsection (se (w_self w));
              secat := cat;
              centerRA := 0.5 * (minRA + maxRA);
              centerDEC := 0.5 * (minDEC + maxDEC);
              radius := if Qle_bool (maxDEC - minDEC) (maxRA - minRA)
                        then maxRA - minRA else maxDEC - minDEC |}
           (w_self w)) w.
Proof.
  unfold runse, bind, get, modify, lift_opt, fits_getheader, ret, raise.
  cbn [w_disk set_self w_self with_se cfg].
  repeat match goal with
  | |- context [match ?x with _ => _ end] =>
      match x with
      | context [match _ with _ => _ end] => fail 1
      | _ => destruct x eqn:?
      end
  end; try discriminate.
  all: intros [= <-].
  all: eexists _, _, _, _, _; repeat (split; [eassumption|]).
  all: match goal with Hq : Qle_bool _ _ = _ |- _ => rewrite Hq end; reflexivity.
Qed.

(** X2: [runse] needs one of the instruments 'h', 'i' and 'm'.  With any
    other value it does not return: it raises, the catalog of the object is
    as before, and when the image has a header with a number other than zero
    as EXPTIME, the error is UnboundLocalError (of [defaultcat], which no
    branch has assigned). *)
Theorem runse_needs_known_instrument w r w' :
  runse w = (r, w') ->
  instrument (cfg (w_self w)) <> "h"%string ->
  instrument (cfg (w_self w)) <> "i"%string ->
  instrument (cfg (w_self w)) <> "m"%string ->
  (exists e, r = Exc e) /\
  secat (se (w_self w')) = secat (se (w_self w)) /\
  (forall d hd e expt,
     w_disk w !! image (cfg (w_self w)) = Some (FitsFile d hd) ->
     hd !! "EXPTIME" = Some e -> float_of_hval e = Some expt -> ~ expt == 0 ->
     r = Exc (PyError "UnboundLocalError")).
Proof.
  intros Hrun Hh Hi Hm.
  apply String.eqb_neq in Hh, Hi, Hm.
  revert Hrun. unfold runse, bind, get, modify, lift_opt, fits_getheader, ret, raise.
  cbn [w_disk set_self w_self with_se cfg].
  rewrite Hh, Hi, Hm. cbn [orb negb].
  destruct (w_disk w !! image (cfg (w_self w))) as [[d hd|raw]|] eqn:Ef;
    try (intros [= <- <-]; split; [eauto|]; split; [reflexivity|];
         intros; discriminate).
  destruct (hd !! "EXPTIME") as [e|] eqn:He.
  2:{ intros [= <- <-]. split; [eauto|]. split; [reflexivity|].
      intros d' hd' e expt [= <- <-]. congruence. }
  destruct (float_of_hval e) as [expt|] eqn:Hx.
  2:{ intros [= <- <-]. split; [eauto|]. split; [reflexivity|].
      intros d' hd' e' expt [= <- <-] He'. congruence. }
  destruct (Qeq_bool expt 0) eqn:Hz.
  { intros [= <- <-]. split; [eauto|]. split; [reflexivity|].
    intros d' hd' e' expt' [= <- <-] He' Hx' Hnz.
    exfalso. apply Hnz. apply Qeq_bool_iff. congruence. }
  intros [= <- <-]. split; [eauto|]. split; reflexivity.
Qed.

End runse_facts.

(** ** [match_coords], flag by flag *)

Section match_coords_more.
Import getzp.
Context `{Sky}.

Lemma nearest_spec p pre rest b d cb j d' :
  pre !! b = Some cb -> d = separation p cb ->
  (forall c, In c pre -> d <= separation p c) ->
  nearest p rest (length pre) (b, d) = (j, d') ->
  exists cj, (pre ++ rest) !! j = Some cj /\ d' = separation p cj /\
    forall c, In c (pre ++ rest) -> d' <= separation p c.
Proof.
  revert pre b d cb. induction rest as [|c rest IH]; intros pre b d cb Hb Hd Hmin.
  - cbn. intros [= <- <-]. exists cb. rewrite app_nil_r. auto.
  - cbn [nearest snd].
    replace (S (length pre)) with (length (pre ++ [c]))
      by (rewrite length_app; cbn; lia).
    replace (pre ++ c :: rest) with ((pre ++ [c]) ++ rest)
      by (now rewrite <- app_assoc).
    destruct (np.Qltb (separation p c) d) eqn:E.
    + apply Qltb_lt in E. apply (IH (pre ++ [c]) (length pre) _ c).
      * rewrite lookup_app_r by lia. now rewrite Nat.sub_diag.
      * reflexivity.
      * intros c' Hc'. apply in_app_or in Hc' as [Hc'|[<-|[]]].
        -- apply Qlt_le_weak. eapply Qlt_le_trans; [exact E|auto].
        -- apply Qle_refl.
    + apply Qltb_ge in E. apply (IH (pre ++ [c]) b d cb).
      * rewrite lookup_app_l; [exact Hb|]. now apply lookup_lt_Some in Hb.
      * exact Hd.
      * intros c' Hc'. apply in_app_or in Hc' as [Hc'|[<-|[]]]; auto.
Qed.

Lemma match_to_catalog_sky_spec coords cat index dist2d :
  match_to_catalog_sky coords cat = Some (index, dist2d) ->
  forall k p, coords !! k = Some p ->
    exists j cj, index !! k = Some j /\ cat !! j = Some cj /\
      dist2d !! k = Some (separation p cj) /\
      forall c, In c cat -> separation p cj <= separation p c.
Proof.
  destruct cat as [|c0 cat]; [discriminate|]. cbn. intros [= <- <-] k p Hk.
  rewrite !lookup_map, Hk. cbn.
  destruct (nearest p cat 1%nat (0%nat, separation p c0)) as [j d'] eqn:E.
  destruct (nearest_spec p [c0] cat 0%nat _ c0 j d' eq_refl eq_refl) as (cj & Hj & -> & Hmin).
  - intros c [<-|[]]. apply Qle_refl.
  - exact E.
  - exists j, cj. cbn. auto.
Qed.

(** Everything [match_coords] computes when it returns. *)
Lemma match_coords_ret_full self self' :
  match_coords self = (Ret tt, self') ->
  exists index dist2d found matched,
    match_to_catalog_sky (map (fun p => (RAJ2000 p, DEJ2000 p)) (pan self))
      (map (fun r => (ALPHA_J2000 r, DELTA_J2000 r)) (secat (se self)))
      = Some (index, dist2d) /\
    np.take (secat (se self))
      (np.compress (map (fun d => np.Qltb d (5 / 3600)) dist2d) index) = Some found /\
    np.mask_assign (np_zeros (length (pan self)) (secat (se self)))
      (map (fun d => np.Qltb d (5 / 3600)) dist2d) found = Some matched /\
    matchflag (mt self') = map (fun d => np.Qltb d (5 / 3600)) dist2d /\
    matchedarray1 (mt self') = matched /\
    (if String.eqb (instrument (cfg self)) "i" then
       exists k0 k1 k2 k3,
         keepsection (se self) !! 0%nat = Some k0 /\
         keepsection (se self) !! 1%nat = Some k1 /\
         keepsection (se self) !! 2%nat = Some k2 /\
         keepsection (se self) !! 3%nat = Some k3 /\
         goodarea_flag (mt self') = goodarea k0 k1 k2 k3 matched /\
         fitflag (mt self') =
           np.and_ (star_flag (matchflag (mt self')) (pan self) matched)
                   (goodarea k0 k1 k2 k3 matched)
     else
       goodarea_flag (mt self') = goodarea_flag (mt self) /\
       fitflag (mt self') = star_flag (matchflag (mt self')) (pan self) matched).
Proof.
  unfold match_coords, bind, get, lift_opt, ret, raise, modify.
  destruct (match_to_catalog_sky _ _) as [[index dist2d]|] eqn:Hm; [|discriminate].
  cbn [fst snd].
  destruct (np.take _ _) as [found|] eqn:Ht; [|discriminate].
  rewrite length_map.
  destruct (np.mask_assign _ _ found) as [matched|] eqn:Ha; [|discriminate].
  destruct (String.eqb (instrument (cfg self)) "i").
  - destruct (keepsection (se self) !! 0%nat) as [k0|]; [|discriminate].
    destruct (keepsection (se self) !! 1%nat) as [k1|]; [|discriminate].
    destruct (keepsection (se self) !! 2%nat) as [k2|]; [|discriminate].
    destruct (keepsection (se self) !! 3%nat) as [k3|]; [|discriminate].
    intros [= <-]. exists index, dist2d, found, matched. cbn.
    repeat split; eauto 12.
  - intros [= <-]. exists index, dist2d, found, matched. cbn.
    repeat split; eauto.
Qed.

Lemma match_index_bound coords cat index dist2d :
  match_to_catalog_sky coords cat = Some (index, dist2d) ->
  length index = length coords /\ length dist2d = length coords /\
  Forall (fun j => (j < length cat)%nat) index.
Proof.
  intros Hm. destruct (match_to_catalog_sky_length _ _ _ _ Hm) as [Hi Hd].
  repeat split; auto. apply Forall_lookup. intros k j Hk.
  assert (Hlt : (k < length coords)%nat)
    by (rewrite <- Hi; now apply lookup_lt_Some in Hk).
  destruct (lookup_lt_is_Some_2 _ _ Hlt) as [p Hp].
  destruct (match_to_catalog_sky_spec _ _ _ _ Hm k p Hp) as (j' & cj & Hj & Hc & _).
  rewrite Hk in Hj. injection Hj as <-. now apply lookup_lt_Some in Hc.
Qed.

Lemma match_coords_ok self :
  secat (se self) <> [] ->
  (String.eqb (instrument (cfg self)) "i" = true ->
   (4 <= length (keepsection (se self)))%nat) ->
  exists self', match_coords self = (Ret tt, self').
Proof.
  intros Hne Hkeep.
  unfold match_coords, bind, get, lift_opt, ret, raise, modify.
  destruct (match_to_catalog_sky _ _) as [[index dist2d]|] eqn:Hm;
    [|destruct (secat (se self)); [contradiction|discriminate]].
  cbn [fst snd].
  destruct (match_index_bound _ _ _ _ Hm) as (Hli & Hld & Hb).
  rewrite !length_map in *.
  destruct (take_all (secat (se self)) index Hb) as (rows & Hrows & Hlr & _).
  rewrite (take_compress _ (map (fun d => np.Qltb d (5 / 3600)) dist2d) _ _ Hrows).
  destruct (mask_assign_compress
              (np_zeros (length (pan self)) (secat (se self)))
              (map (fun d => np.Qltb d (5 / 3600)) dist2d) rows) as (a' & Ha & _).
  { unfold np_zeros. rewrite length_map, length_replicate. exact Hld. }
  { unfold np_zeros. rewrite length_replicate. congruence. }
  rewrite Ha.
  destruct (String.eqb (instrument (cfg self)) "i"); [|eauto].
  specialize (Hkeep eq_refl).
  destruct (lookup_lt_is_Some_2 (keepsection (se self)) 0) as [k0 ->]; [lia|].
  destruct (lookup_lt_is_Some_2 (keepsection (se self)) 1) as [k1 ->]; [lia|].
  destruct (lookup_lt_is_Some_2 (keepsection (se self)) 2) as [k2 ->]; [lia|].
  destruct (lookup_lt_is_Some_2 (keepsection (se self)) 3) as [k3 ->]; [lia|].
  eauto.
Qed.

(** X3: when [match_coords] returns.  It returns whenever the Source
    Extractor catalog is not empty and, for the instrument 'i',
    [keepsection] has its four entries; on an empty catalog it raises
    ValueError and leaves the object as it is. *)
Theorem match_coords_returns self :
  (secat (se self) <> [] ->
   (String.eqb (instrument (cfg self)) "i" = true ->
    (4 <= length (keepsection (se self)))%nat) ->
   exists self', match_coords self = (Ret tt, self')) /\
  (secat (se self) = [] ->
   match_coords self = (Exc (PyError "ValueError"), self)).
Proof.
  split; [apply match_coords_ok|].
  intros He. unfold match_coords, bind, get, lift_opt, raise.
  now rewrite He.
Qed.

(** X4: what the match flag says.  For the Pan-STARRS star at index [i],
    after [match_coords] either the flag is set, and then row [i] of
    [matchedarray1] is a source of the catalog that is less than 5 arcsec
    (5/3600 deg) from the star and at least as near as every other source;
    or the flag is not set, and then every source of the catalog is 5 arcsec
    or more away. *)
Theorem matchflag_means_within_5_arcsec self self' i p :
  match_coords self = (Ret tt, self') ->
  pan self !! i = Some p ->
  (matchflag (mt self') !! i = Some true /\
   exists row,
     matchedarray1 (mt self') !! i = Some row /\ In row (secat (se self)) /\
     separation (RAJ2000 p, DEJ2000 p) (ALPHA_J2000 row, DELTA_J2000 row) < 5 / 3600 /\
     forall r', In r' (secat (se self)) ->
       separation (RAJ2000 p, DEJ2000 p) (ALPHA_J2000 row, DELTA_J2000 row)
       <= separation (RAJ2000 p, DEJ2000 p) (ALPHA_J2000 r', DELTA_J2000 r')) \/
  (matchflag (mt self') !! i = Some false /\
   forall r', In r' (secat (se self)) ->
     5 / 3600 <= separation (RAJ2000 p, DEJ2000 p) (ALPHA_J2000 r', DELTA_J2000 r')).
Proof.
  intros Hret Hp.
  apply match_coords_ret_full in Hret
    as (index & dist2d & found & matched & Hm & Ht & Ha & Hmf & Hma & _).
  destruct (match_index_bound _ _ _ _ Hm) as (Hli & Hld & Hb).
  rewrite !length_map in *.
  assert (Hpc : map (fun p => (RAJ2000 p, DEJ2000 p)) (pan self) !! i
                = Some (RAJ2000 p, DEJ2000 p)) by (now rewrite lookup_map, Hp).
  destruct (match_to_catalog_sky_spec _ _ _ _ Hm i _ Hpc)
    as (j & cj & Hj & Hcj & Hd & Hmin).
  rewrite lookup_map in Hcj.
  destruct (secat (se self) !! j) as [row|] eqn:Hrow; [|discriminate].
  cbn in Hcj. injection Hcj as <-.
  assert (Hall : forall r', In r' (secat (se self)) ->
    separation (RAJ2000 p, DEJ2000 p) (ALPHA_J2000 row, DELTA_J2000 row)
    <= separation (RAJ2000 p, DEJ2000 p) (ALPHA_J2000 r', DELTA_J2000 r')).
  { intros r' Hr'. apply Hmin.
    apply (in_map (fun r => (ALPHA_J2000 r, DELTA_J2000 r))) in Hr'. exact Hr'. }
  rewrite Hmf, lookup_map, Hd. cbn.
  destruct (np.Qltb _ (5 / 3600)) eqn:E.
  - left. split; [reflexivity|]. pose proof E as Eb. apply Qltb_lt in E.
    destruct (take_all (secat (se self)) index Hb) as (rows & Hrows & Hlr & Hk).
    rewrite (take_compress _ (map (fun d => np.Qltb d (5 / 3600)) dist2d) _ _ Hrows) in Ht.
    injection Ht as <-.
    destruct (mask_assign_compress
                (np_zeros (length (pan self)) (secat (se self)))
                (map (fun d => np.Qltb d (5 / 3600)) dist2d) rows) as (a' & Ha' & Hi').
    { unfold np_zeros. rewrite length_map, length_replicate. exact Hld. }
    { unfold np_zeros. rewrite length_replicate. congruence. }
    rewrite Ha in Ha'. injection Ha' as <-.
    exists row. rewrite Hma, Hi' by (rewrite lookup_map, Hd; cbn; now rewrite Eb).
    rewrite (Hk i j Hj).
    repeat split; auto.
    apply list_elem_of_In, list_elem_of_lookup. eauto.
  - right. split; [reflexivity|]. apply Qltb_ge in E.
    intros r' Hr'. eapply Qle_trans; [exact E | now apply Hall].
Qed.

Lemma lookup_and a b i :
  np.and_ a b !! i = Some true <-> a !! i = Some true /\ b !! i = Some true.
Proof.
  unfold np.and_. rewrite lookup_zip_with.
  destruct (a !! i) as [[]|], (b !! i) as [[]|]; cbn; split;
    try discriminate; try tauto; intros [? ?]; discriminate.
Qed.

(** X5: what the fit flag says.  A star with [fitflag] set has its match
    flag set, is fainter than r = 9 in Pan-STARRS with a quality flag below
    64, and its matched source has FLAGS below 5 and CLASS_STAR above 0.95;
    for the instrument 'i' the source also lies strictly inside
    [keepsection] in X_IMAGE and Y_IMAGE. *)
Theorem fitflag_means self self' i :
  match_coords self = (Ret tt, self') ->
  fitflag (mt self') !! i = Some true ->
  matchflag (mt self') !! i = Some true /\
  exists p row,
    pan self !! i = Some p /\ matchedarray1 (mt self') !! i = Some row /\
    9 < rmag p /\ (FLAGS row < 5)%Z /\ (Qual p < 64)%Z /\
    0.95 < CLASS_STAR row /\
    (String.eqb (instrument (cfg self)) "i" = true ->
     exists k0 k1 k2 k3 rest,
       keepsection (se self) = k0 :: k1 :: k2 :: k3 :: rest /\
       k0 < X_IMAGE row /\ X_IMAGE row < k1 /\
       k2 < Y_IMAGE row /\ Y_IMAGE row < k3).
Proof.
  intros Hret Hf.
  apply match_coords_ret_full in Hret
    as (index & dist2d & found & matched & _ & _ & _ & Hmf & Hma & Hgf).
  assert (Hstar : star_flag (matchflag (mt self')) (pan self) matched !! i = Some true /\
    (String.eqb (instrument (cfg self)) "i" = true ->
     exists k0 k1 k2 k3 rest,
       keepsection (se self) = k0 :: k1 :: k2 :: k3 :: rest /\
       goodarea k0 k1 k2 k3 matched !! i = Some true)).
  { destruct (String.eqb (instrument (cfg self)) "i").
    - destruct Hgf as (k0 & k1 & k2 & k3 & H0 & H1 & H2 & H3 & _ & Hff).
      rewrite Hff in Hf. apply lookup_and in Hf as [Hs Hg]. split; [exact Hs|].
      intros _. destruct (keepsection (se self)) as [|a0 [|a1 [|a2 [|a3 rest]]]];
        try discriminate.
      cbn in H0, H1, H2, H3. injection H0 as ->. injection H1 as ->.
      injection H2 as ->. injection H3 as ->. eauto 10.
    - destruct Hgf as [_ Hff]. rewrite Hff in Hf. split; [exact Hf|discriminate]. }
  destruct Hstar as [Hs Hi]. unfold star_flag in Hs.
  apply lookup_and in Hs as [Hs H4]. apply lookup_and in Hs as [Hs H3].
  apply lookup_and in Hs as [Hs H2]. apply lookup_and in Hs as [Hs H1].
  split; [exact Hs|].
  rewrite lookup_map in H1; rewrite lookup_map in H2;
    rewrite lookup_map in H3; rewrite lookup_map in H4.
  destruct (pan self !! i) as [p|]; [|discriminate].
  destruct (matched !! i) as [row|] eqn:Hrow; [|discriminate].
  cbn in H1, H2, H3, H4.
  exists p, row. rewrite Hma.
  repeat split; auto.
  - apply Qltb_lt. congruence.
  - apply Z.ltb_lt. congruence.
  - apply Z.ltb_lt. congruence.
  - apply Qltb_lt. congruence.
  - intros Hins. destruct (Hi Hins) as (k0 & k1 & k2 & k3 & rest & Hk & Hg).
    unfold goodarea in Hg.
    apply lookup_and in Hg as [Hg G4]. apply lookup_and in Hg as [Hg G3].
    apply lookup_and in Hg as [G1 G2].
    rewrite lookup_map, Hrow in G1; rewrite lookup_map, Hrow in G2;
      rewrite lookup_map, Hrow in G3; rewrite lookup_map, Hrow in G4.
    cbn in G1, G2, G3, G4.
    exists k0, k1, k2, k3, rest.
    repeat split; auto; apply Qltb_lt; congruence.
Qed.

End match_coords_more.

(** ** [fitzp] and [update_header] *)

Section fit_more.
Import getzp.
Context `{Scipy}.

Lemma passes_last k l0 s0 l s :
  passes (S k) l0 s0 l s ->
  exists lp sp, passes k l0 s0 lp sp /\
    np.Qltb 0.001 (delta lp) = true /\ loop_body lp sp = (Ret l, s).
Proof.
  revert l0 s0. induction k as [|k IH]; intros l0 s0 Hp.
  - inversion Hp as [|? ? ? l1 s1 ? ? Hd Hb Hp']; subst.
    inversion Hp'; subst. exists l0, s0. split; [constructor|auto].
  - inversion Hp as [|? ? ? l1 s1 ? ? Hd Hb Hp']; subst.
    destruct (IH _ _ Hp') as (lp & sp & Hpp & Hdp & Hbp).
    exists lp, sp. split; [eapply passes_S; eauto|auto].
Qed.

Lemma passes_data k l0 s0 l s :
  aligned l0 -> passes k l0 s0 l s ->
  aligned l /\
  x l `sublist_of` x l0 /\ y l `sublist_of` y l0 /\ yerr l `sublist_of` yerr l0.
Proof.
  intros Hal Hp. induction Hp as [|k l0 s0 l1 s1 l s _ Hb _ IH]; [auto|].
  apply loop_body_ret in Hb as (fr & b1 & _ & _ & _ & -> & ->).
  destruct (IH (pass_locals_aligned fr b1 l0 s0 Hal)) as (Ha & Hx & Hy & He).
  split; [exact Ha|].
  repeat split; (etrans; [eassumption|]); cbn; apply compress_sublist.
Qed.

Lemma fitzp_setup_data s l0 s0 :
  fitzp_setup s = (Ret l0, s0) ->
  x l0 = np.compress (fitflag (mt s)) (R (mt s)).
Proof.
  unfold fitzp_setup, bind, get, lift_opt, modify, ret, raise.
  destruct (polyfit1 _ _); [|discriminate].
  destruct (mag (cfg s) =? 0)%Z.
  { destruct (aper_column MAG_APER _ _); [|discriminate].
    destruct (aper_column MAGERR_APER _ _); [|discriminate].
    now intros [= <- <-]. }
  destruct (mag (cfg s) =? 1)%Z; [now intros [= <- <-]|].
  destruct (mag (cfg s) =? 2)%Z; [now intros [= <- <-]|discriminate].
Qed.

Lemma fitzp_finish_ret l s s' :
  fitzp_finish l s = (Ret tt, s') ->
  exists fr z, t l = Some fr /\ bestc (fit s) !! 1%nat = Some z /\
    s' = set_fit_final (x l) (y l) (yerr l) (pcov fr) z s.
Proof.
  unfold fitzp_finish, bind, get, lift_opt, modify, ret, raise.
  destruct (aper_column MAG_APER _ _); [|discriminate].
  destruct (t l) as [fr|]; [|discriminate].
  destruct (bestc (fit s) !! 1%nat) as [z|]; [|discriminate].
  intros [= <-]. eauto.
Qed.

(** X7: a zero-point comes from at least two stars.  When [fitzp] returns
    (on flag and magnitude arrays of one length), the arrays [self.x],
    [self.y] and [self.yerr] it stores have one length, at least two, and
    [self.x] is a sub-sequence of the magnitudes [self.R] selected by
    [fitflag]: the stars that survived the clipping, in their order. *)
Theorem fitzp_keeps_two_points fuel s s' n :
  length (fitflag (mt s)) = n -> length (R (mt s)) = n ->
  length (matchedarray1 (mt s)) = n ->
  fitzp fuel s = Some (Ret tt, s') ->
  (2 <= length (self_x (fit s')))%nat /\
  length (self_y (fit s')) = length (self_x (fit s')) /\
  length (self_yerr (fit s')) = length (self_x (fit s')) /\
  self_x (fit s') `sublist_of` np.compress (fitflag (mt s)) (R (mt s)).
Proof.
  intros Hf HR Hm. unfold fitzp.
  destruct (fitzp_setup s) as [[l0|e] s0] eqn:Hset; [|discriminate].
  destruct (fit_loop fuel l0 s0) as [[[l|e] s2]|] eqn:Hloop; try discriminate.
  intros Hfin. injection Hfin as Hfin.
  pose proof (fitzp_setup_aligned _ _ _ _ Hset Hf HR Hm) as Hal.
  pose proof (fitzp_setup_data _ _ _ Hset) as Hx0.
  apply fitzp_setup_ret in Hset as (Hd & _ & _).
  apply fit_loop_runs in Hloop as (k & _ & Hruns).
  apply runs_ret_passes in Hruns as [Hp Hd'].
  destruct k as [|k].
  { inversion Hp; subst. rewrite Hd in Hd'. discriminate. }
  destruct (passes_data _ _ _ _ _ Hal Hp) as ([Hxy Hye] & Hsub & _ & _).
  apply passes_last in Hp as (lp & sp & Hpp & _ & Hb).
  destruct (passes_data _ _ _ _ _ Hal Hpp) as (Halp & _).
  apply loop_body_ret in Hb as (fr & b1 & _ & _ & H2 & Hl & _).
  assert (Hlen : (2 <= length (x l))%nat)
    by (rewrite Hl, pass_locals_length by assumption; exact H2).
  apply fitzp_finish_ret in Hfin as (fr' & z & _ & _ & ->). cbn.
  rewrite <- Hx0. repeat split; auto; congruence.
Qed.

Lemma sum_flag_all_false {A} (f : A -> bool) (l : list A) :
  (forall v, f v = false) -> np.sum_flag (map f l) = 0%nat.
Proof. intros Hf. induction l as [|v l IH]; cbn; [reflexivity|]. now rewrite Hf. Qed.

(** X8: degenerate data end the run.  A pass of the fit loop over fewer
    than two points, or one whose residuals have a median absolute deviation
    of zero (a fit that goes through more than half of the points with the
    same residual, a perfect fit among them), keeps fewer than two points:
    the pass exits (SystemExit), with the coefficients, the points and the
    residuals of that pass stored in the object. *)
Theorem degenerate_pass_exits l s fr b1 :
  curve_fit zpfunc (x l) (y l) (yerr l) = Some fr ->
  bestc (fit s) !! 1%nat = Some b1 ->
  (length (x l) < 2)%nat \/
  MAD (fit_residual [1; popt fr] (x l) (y l)) == 0 ->
  loop_body l s =
    (Exc SystemExit,
     set_x_y_residual (x l) (y l) (fit_residual [1; popt fr] (x l) (y l))
       (set_bestc [1; popt fr] s)).
Proof.
  intros Hfit Hb1 Hdeg. rewrite (loop_body_eq _ _ _ _ Hfit Hb1).
  assert (Hfew : (np.sum_flag (pass_flag fr l s) <? 2)%nat = true).
  { apply Nat.ltb_lt. destruct Hdeg as [Hlen | Hmad].
    - pose proof (sum_flag_le (pass_flag fr l s)) as Hle.
      assert (Hl : (length (pass_flag fr l s) <= length (x l))%nat).
      { unfold pass_flag, clip_flag, abs_dev, pass_residual, fit_residual, np.sub,
          np.polyval.
        rewrite !length_map, length_zip_with, length_map. lia. }
      lia.
    - unfold pass_flag. rewrite clip_flag_map, sum_flag_all_false; [lia|].
      intros ri. apply Qltb_ge. unfold pass_residual. rewrite Hmad.
      assert (E0 : nsigma (cfg s) * 0 == 0) by ring.
      rewrite E0. apply Qabs_nonneg. }
  now rewrite Hfew.
Qed.

Lemma fit_loop_frame fuel l s r s' :
  fit_loop fuel l s = Some (r, s') ->
  cfg s' = cfg s /\ se s' = se s /\ pan s' = pan s /\ mt s' = mt s.
Proof.
  revert l s. induction fuel as [|fuel IH]; intros l s; cbn [fit_loop];
    destruct (np.Qltb 0.001 (delta l)); try discriminate;
    try (intros [= <- <-]; auto).
  destruct (loop_body l s) as [[l1|e] s1] eqn:Hb;
    apply loop_body_frame in Hb as (Hc & Hs & Hp & Hm & _).
  - intros Hr. apply IH in Hr as (Hc' & Hs' & Hp' & Hm'). repeat split; congruence.
  - intros [= <- <-]. auto.
Qed.

Lemma fitzp_setup_frame s r s0 :
  fitzp_setup s = (r, s0) ->
  cfg s0 = cfg s /\ se s0 = se s /\ pan s0 = pan s /\ mt s0 = mt s.
Proof.
  destruct r as [l0|e]; intros Hset.
  - apply fitzp_setup_ret in Hset as (_ & _ & ->). auto.
  - revert Hset. unfold fitzp_setup, bind, get, lift_opt, modify, ret, raise.
    destruct (polyfit1 _ _); [|intros [= _ <-]; auto].
    destruct (mag (cfg s) =? 0)%Z.
    { destruct (aper_column MAG_APER _ _); [|intros [= _ <-]; auto].
      destruct (aper_column MAGERR_APER _ _);
        [discriminate | intros [= _ <-]; auto]. }
    destruct (mag (cfg s) =? 1)%Z; [discriminate|].
    destruct (mag (cfg s) =? 2)%Z; [discriminate|intros [= _ <-]; auto].
Qed.

Lemma fitzp_finish_frame l s r s' :
  fitzp_finish l s = (r, s') ->
  cfg s' = cfg s /\ se s' = se s /\ pan s' = pan s /\ mt s' = mt s.
Proof.
  unfold fitzp_finish, bind, get, lift_opt, modify, ret, raise.
  destruct (aper_column MAG_APER _ _); [|intros [= <- <-]; auto].
  destruct (t l); [|intros [= <- <-]; auto].
  destruct (bestc (fit s) !! 1%nat); intros [= <- <-]; auto.
Qed.

(** X9: [fitzp] assigns fit attributes only.  However it ends (returning,
    raising or exiting), the configuration, the Source Extractor attributes,
    the Pan-STARRS catalog and the match arrays of the object are as
    before. *)
Theorem fitzp_frame fuel s r s' :
  fitzp fuel s = Some (r, s') ->
  cfg s' = cfg s /\ se s' = se s /\ pan s' = pan s /\ mt s' = mt s.
Proof.
  unfold fitzp.
  destruct (fitzp_setup s) as [[l0|e] s0] eqn:Hset;
    apply fitzp_setup_frame in Hset as (Hc0 & Hs0 & Hp0 & Hm0).
  - destruct (fit_loop fuel l0 s0) as [[[l|e] s2]|] eqn:Hloop; try discriminate;
      apply fit_loop_frame in Hloop as (Hc & Hs & Hp & Hm).
    + intros [= Hfin]. apply fitzp_finish_frame in Hfin as (Hc' & Hs' & Hp' & Hm').
      repeat split; congruence.
    + intros [= <- <-]. repeat split; congruence.
  - intros [= <- <-]. auto.
Qed.

End fit_more.

Section update_header_more.
Import getzp.

Lemma update_header_ret w w' :
  update_header w = (Ret tt, w') ->
  exists im header b1,
    w_disk w !! image (cfg (w_self w)) = Some (FitsFile (Some im) header) /\
    bestc (fit (w_self w)) !! 1%nat = Some b1 /\
    w' = set_disk
      (<[image (cfg (w_self w)) :=
           FitsFile (Some im)
             (<["FLUXZPJY" := HFloat 3631]>
               (<["PHOTSYS" := HStr "AB"]>
                 (if String.eqb (filter (cfg (w_self w))) "R" then
                    <["LAMB(um)" := HFloat 0.6442]>
                      (<["PHOTZP" := HFloat (format_3f (-1 * b1 + 0.21))]> header)
                  else <["PHOTZP" := HFloat (format_3f (-1 * b1))]> header)))]>
         (w_disk w)) w.
Proof.
  unfold update_header, bind, get, fits_getdata, lift_opt, modify, ret, raise.
  destruct (w_disk w !! image (cfg (w_self w))) as [[[im|] header|]|];
    try discriminate.
  cbn [fst snd].
  destruct (bestc (fit (w_self w)) !! 1%nat) as [b1|]; [|discriminate].
  intros [= <-]. exists im, header, b1. repeat split.
Qed.

(** X10: [update_header] can be run again.  After a run that returned, a
    second run returns and leaves the world (the file with its header
    included) exactly as the first left it; a run that raised has written
    nothing. *)
Theorem update_header_idempotent w r w' :
  update_header w = (r, w') ->
  (r = Ret tt -> update_header w' = (Ret tt, w')) /\
  (r <> Ret tt -> w' = w).
Proof.
  intros Hrun. split.
  - intros ->. apply update_header_ret in Hrun as (im & header & b1 & Hf & Hb & ->).
    unfold update_header, bind, get, fits_getdata, lift_opt, modify, ret, raise.
    cbn [w_disk set_disk w_self]. rewrite lookup_insert_eq. cbn [fst snd].
    rewrite Hb. f_equal. unfold set_disk. cbn. f_equal.
    rewrite insert_insert_eq. f_equal. f_equal.
    apply map_eq. intros k.
    destruct (String.eqb (filter (cfg (w_self w))) "R");
      rewrite !lookup_insert; repeat case_decide; reflexivity.
  - intros Hne. revert Hrun.
    unfold update_header, bind, get, fits_getdata, lift_opt, modify, ret, raise.
    destruct (w_disk w !! image (cfg (w_self w))) as [[[im|] header|]|];
      try (intros [= <- <-]; reflexivity).
    cbn [fst snd].
    destruct (bestc (fit (w_self w)) !! 1%nat) as [b1|];
      intros [= <- <-]; [contradiction|reflexivity].
Qed.

End update_header_more.

(** ** The whole pipeline *)

Section pipeline_more.
Import getzp.
Context `{Scipy} `{Sky}.

Lemma get_panstarrs_ret w w' :
  get_panstarrs w = (Ret tt, w') ->
  exists p, w' = set_self (with_pan p (w_self w)) w.
Proof.
  unfold get_panstarrs, bind, get, lift_opt, modify, ret, raise.
  destruct (panstarrs_query _ _ _) as [p|]; [|discriminate].
  intros [= <-]. eauto.
Qed.


(** X6: in the pipeline the matching stage does not fail.  After a [runse]
    and a [get_panstarrs] that returned, [match_coords] returns: the catalog
    is not empty, since [runse] took its minimum and maximum, and for 'i' it
    has set the four entries of [keepsection]. *)
Theorem match_coords_after_runse w w1 w2 :
  runse w = (Ret tt, w1) ->
  get_panstarrs w1 = (Ret tt, w2) ->
  exists self', match_coords (w_self w2) = (Ret tt, self').
Proof.
  intros Hr Hp.
  apply runse_ret in Hr as (cat & a & b & c & d & Ha & _ & _ & _ & ->).
  apply get_panstarrs_ret in Hp as (p & ->).
  apply match_coords_ok; cbn.
  - intros ->. discriminate.
  - destruct (String.eqb (instrument (cfg (w_self w))) "i"); [cbn; lia|discriminate].
Qed.






End pipeline_more.

(** ** The constructor of [getzp] *)


Section init_norm.
Import getzp.


End init_norm.


(** ** The Legacy cutouts *)

Section legacy_more.
Import cutouts.
Context `{Services}.

Lemma retrieve_if_missing_frame url name w r w' :
  retrieve_if_missing url name w = (r, w') ->
  w_self w' = w_self w /\ w_calls w' = w_calls w /\
  (forall other f, w_disk w !! other = Some f -> w_disk w' !! other = Some f) /\
  (forall other, other <> name -> w_disk w' !! other = w_disk w !! other).
Proof.
  unfold retrieve_if_missing, bind, get, ret.
  destruct (bool_decide (is_Some (w_disk w !! name))) eqn:Hex.
  - intros [= <- <-]. auto.
  - apply bool_decide_eq_false in Hex.
    unfold urlretrieve, bind, modify, lift_opt, ret, raise.
    destruct (http_get url) as [body|]; intros [= <- <-]; cbn; repeat split; auto.
    + intros other f Ho. rewrite lookup_insert_ne; [exact Ho|].
      intros <-. apply Hex. eauto.
    + intros other Hne. now rewrite lookup_insert_ne.
Qed.

Lemma get_legacy_images_keeps_files ra dec gid px imsize bands mp w r w1 :
  get_legacy_images ra dec gid px imsize bands mp w = (r, w1) ->
  forall name f, w_disk w !! name = Some f -> w_disk w1 !! name = Some f.
Proof.
  unfold get_legacy_images. unfold bind at 1.
  destruct (retrieve_if_missing _ (legacy_jpeg_name gid imsize) w)
    as [[[]|ej] wa] eqn:Ej;
    apply retrieve_if_missing_frame in Ej as (_ & _ & Hka & _).
  2:{ intros [= <- <-]. exact Hka. }
  unfold bind at 1.
  destruct (retrieve_if_missing _ (legacy_fits_name gid imsize bands) wa)
    as [[[]|ef] wb] eqn:Ef;
    apply retrieve_if_missing_frame in Ef as (_ & _ & Hkb & _).
  2:{ intros [= <- <-]. auto. }
  intros Hread. apply read_legacy_cutout_spec in Hread as [-> _]. auto.
Qed.

(** X13: [get_legacy_images] touches its own two files only.  However the
    call ends, the object and the log of calls are as before, every file
    that existed has kept its content (nothing is overwritten), and every
    name other than the jpeg and the FITS name of the call is as before. *)
Theorem legacy_touches_only_its_files ra dec gid px imsize bands mp w r w1 :
  get_legacy_images ra dec gid px imsize bands mp w = (r, w1) ->
  w_self w1 = w_self w /\ w_calls w1 = w_calls w /\
  (forall name f, w_disk w !! name = Some f -> w_disk w1 !! name = Some f) /\
  (forall name,
     name <> legacy_jpeg_name gid imsize ->
     name <> legacy_fits_name gid imsize bands ->
     w_disk w1 !! name = w_disk w !! name).
Proof.
  unfold get_legacy_images. unfold bind at 1.
  destruct (retrieve_if_missing _ (legacy_jpeg_name gid imsize) w)
    as [[[]|ej] wa] eqn:Ej;
    apply retrieve_if_missing_frame in Ej as (Hsa & Hca & Hka & Hoa).
  2:{ intros [= <- <-]. repeat split; auto. }
  unfold bind at 1.
  destruct (retrieve_if_missing _ (legacy_fits_name gid imsize bands) wa)
    as [[[]|ef] wb] eqn:Ef;
    apply retrieve_if_missing_frame in Ef as (Hsb & Hcb & Hkb & Hob).
  2:{ intros [= <- <-]. repeat split; try congruence; auto.
      intros name Hj Hf. rewrite Hob, Hoa; auto. }
  intros Hread. apply read_legacy_cutout_spec in Hread as [-> _].
  repeat split; try congruence; auto.
  intros name Hj Hf. rewrite Hob, Hoa; auto.
Qed.

(** X14: a cached Legacy cutout is returned whatever the position.  When
    both files of a galaxy id, size and band exist, [get_legacy_images]
    gives the same result for any two positions and pixel scales, and the
    world stays as it is: the file names hold neither RA nor DEC, so a
    cutout stored under an id is reused for every position asked under that
    id. *)
Theorem legacy_cache_ignores_position ra dec px ra' dec' px' gid imsize bands mp w :
  is_Some (w_disk w !! legacy_jpeg_name gid imsize) ->
  is_Some (w_disk w !! legacy_fits_name gid imsize bands) ->
  get_legacy_images ra dec gid px imsize bands mp w =
    get_legacy_images ra' dec' gid px' imsize bands mp w /\
  snd (get_legacy_images ra dec gid px imsize bands mp w) = w.
Proof.
  intros Hj Hf. unfold get_legacy_images, bind.
  rewrite !retrieve_if_missing_cached by assumption.
  split; [reflexivity|].
  destruct (read_legacy_cutout _ _ mp w) as [r w'] eqn:E.
  now apply read_legacy_cutout_spec in E as [-> _].
Qed.

Lemma get_legacy_images_some ra dec gid px imsize bands mp w f j w1 :
  get_legacy_images ra dec gid px imsize bands mp w = (Ret (Some (f, j)), w1) ->
  f = legacy_fits_name gid imsize bands /\ j = legacy_jpeg_name gid imsize /\
  exists t h, w_disk w1 !! f = Some (FitsFile (Some t) h).
Proof.
  unfold get_legacy_images. unfold bind at 1.
  destruct (retrieve_if_missing _ (legacy_jpeg_name gid imsize) w)
    as [[[]|ej] wa]; [|discriminate].
  unfold bind at 1.
  destruct (retrieve_if_missing _ (legacy_fits_name gid imsize bands) wa)
    as [[[]|ef] wb]; [|discriminate].
  unfold read_legacy_cutout, bind, get, lift_opt, ret, raise.
  destruct (w_disk wb !! legacy_fits_name gid imsize bands)
    as [[[im|] hd|raw]|] eqn:E; try discriminate.
  destruct (im !! 1%nat) as [t1|]; [|discriminate].
  destruct (np.mean_is_zero t1); [discriminate|].
  destruct mp; [discriminate|].
  intros [= <- <- <-]. eauto.
Qed.

(** X15: what [download_legacy] has fetched, [load_legacy_images] can
    read.  After a [download_legacy] that returned, [load_legacy_images]
    returns, and it neither writes nor downloads. *)
Theorem load_after_download w w1 :
  download_legacy w = (Ret tt, w1) ->
  exists w2, load_legacy_images w1 = (Ret tt, w2) /\
    w_disk w2 = w_disk w1 /\ w_downloads w2 = w_downloads w1.
Proof.
  unfold download_legacy.
  unfold bind, get, modify, unpack_pair, lift_opt, ret, raise.
  set (imsize := xsize_arcsec (size (w_self w)) / LEGACY_PIXSCALE).
  set (gid := str_hval str_float (galid (w_self w))).
  destruct (get_legacy_images _ _ gid 1 imsize "g" false _) as [[[g|]|eg] wa] eqn:E1;
    try discriminate.
  destruct (get_legacy_images _ _ gid 1 imsize "r" false _) as [[[rr|]|er] wb] eqn:E2;
    try discriminate.
  destruct (get_legacy_images _ _ gid 1 imsize "z" false _) as [[[z|]|ez] wc] eqn:E3;
    try discriminate.
  intros [= <-].
  destruct g as [fg jg], rr as [fr jr], z as [fz jz].
  pose proof (get_legacy_images_some _ _ _ _ _ _ _ _ _ _ _ E1) as (_ & _ & tg & hg & Hg).
  pose proof (get_legacy_images_some _ _ _ _ _ _ _ _ _ _ _ E2) as (_ & _ & tr & hr & Hr).
  pose proof (get_legacy_images_some _ _ _ _ _ _ _ _ _ _ _ E3) as (_ & _ & tz & hz & Hz).
  pose proof (get_legacy_images_keeps_files _ _ _ _ _ _ _ _ _ _ E2) as Hk2.
  pose proof (get_legacy_images_keeps_files _ _ _ _ _ _ _ _ _ _ E3) as Hk3.
  cbn [w_disk set_self] in Hk2, Hk3.
  apply Hk2, Hk3 in Hg. apply Hk3 in Hr.
  unfold load_legacy_images, bind, get, fits_getdata, modify, ret, raise.
  cbn [w_self set_self w_disk legacy with_legacy legacy_filename_g
       legacy_filename_r legacy_filename_z fst snd].
  rewrite Hg, Hr, Hz. cbn. eexists. repeat split.
Qed.

End legacy_more.

(** ** The names of a [cutouts] object *)

Lemma prefix_split a b :
  String.prefix a b = true -> exists tail, b = a +:+ tail.
Proof.
  revert b; induction a as [|c a IH]; intros [|d b]; cbn;
    try discriminate; try (intros _; eexists; reflexivity).
  destruct (Ascii.ascii_dec c d) as [->|]; [|discriminate].
  intros Hp. destruct (IH _ Hp) as [tail ->]. now exists tail.
Qed.

Lemma string_length_app a b :
  String.length (a +:+ b) = (String.length a + String.length b)%nat.
Proof.
  induction a as [|c a IH]; [reflexivity|].
  change (String c a +:+ b) with (String c (a +:+ b)). cbn. now rewrite IH.
Qed.

Lemma index0_split sep s n :
  String.index 0 sep s = Some n ->
  exists tail, s = String.substring 0 n s +:+ sep +:+ tail.
Proof.
  revert n; induction s as [|c s IH]; intros n; cbn [String.index].
  - destruct sep; [|discriminate]. intros [= <-]. now exists "".
  - destruct (String.prefix sep (String c s)) eqn:Hp.
    + intros [= <-]. apply prefix_split in Hp as [tail Ht]. exists tail.
      cbn. exact Ht.
    + destruct (String.index 0 sep s) as [n'|]; [|discriminate].
      intros [= <-]. destruct (IH n' eq_refl) as [tail Ht]. exists tail.
      change (String.substring 0 (S n') (String c s))
        with (String c (String.substring 0 n' s)).
      change (String c (String.substring 0 n' s) +:+ sep +:+ tail)
        with (String c (String.substring 0 n' s +:+ sep +:+ tail)).
      now rewrite <- Ht.
Qed.

Section init_more.
Import cutouts.
Context `{Services}.

Lemma occurs_find s sub : occurs sub s -> sub <> "" -> (-1 <? find s sub)%Z = true.
Proof.
  intros [n Hn] Hne. unfold find.
  destruct (String.index 0 sub s) as [m|] eqn:E; [apply Z.ltb_lt; lia|].
  exfalso. exact (index_correct3 0 n sub s E Hne (Nat.le_0_l n) Hn).
Qed.

Lemma split_head_spec s sep :
  (exists tail, s = split_head s sep +:+ sep +:+ tail) \/
  (split_head s sep = s /\ (sep <> "" -> ~ occurs sep s)).
Proof.
  unfold split_head. destruct (String.index 0 sep s) as [n|] eqn:E.
  - left. now apply index0_split.
  - right. split; [reflexivity|]. intros Hne [n Hn].
    exact (index_correct3 0 n sep s E Hne (Nat.le_0_l n) Hn).
Qed.

Lemma init_ret rimage w w' :
  __init__ rimage w = (Ret tt, w') ->
  exists wc m, WCS (w_disk w) rimage = Some wc /\ marker_of rimage = Some m /\
    w' = set_self (with_names {| r_name := rimage; rootname := split_head rimage m |}
                     (with_wcs wc (w_self w))) w.
Proof.
  unfold __init__, marker_of, bind, get, modify, lift_opt, ret, raise.
  destruct (WCS (w_disk w) rimage) as [wc|]; [|discriminate].
  destruct (-1 <? find rimage "-R")%Z.
  { intros [= <-]. eexists _, _. repeat split. }
  destruct (-1 <? find rimage "-r")%Z.
  { intros [= <-]. eexists _, _. repeat split. }
  destruct (-1 <? find rimage "_R")%Z; [|discriminate].
  intros [= <-]. eexists _, _. repeat split.
Qed.

(** X16: the root name of a [cutouts] object.  When [cutouts.__init__]
    returns, [r_name] is the image name and nothing is written; the split
    string is '-R.fits' when the name has '-R', else '_r.fits' when it has
    '-r', else '_R.fits' (the name then has '_R'); and the root name is the
    part of the name before the first occurrence of the split string, or
    the whole name when the split string does not occur. *)
Theorem init_rootname rimage w w' :
  __init__ rimage w = (Ret tt, w') ->
  r_name (names (w_self w')) = rimage /\
  w_disk w' = w_disk w /\
  exists m,
    (occurs "-R" rimage /\ m = "-R.fits"%string \/
     ~ occurs "-R" rimage /\ occurs "-r" rimage /\ m = "_r.fits"%string \/
     ~ occurs "-R" rimage /\ ~ occurs "-r" rimage /\ occurs "_R" rimage /\
       m = "_R.fits"%string) /\
    ((exists tail, rimage = rootname (names (w_self w')) +:+ m +:+ tail) \/
     (rootname (names (w_self w')) = rimage /\ ~ occurs m rimage)).
Proof.
  intros Hr. apply init_ret in Hr as (wc & m & _ & Hm & ->). cbn.
  repeat split. exists m. split.
  - unfold marker_of in Hm.
    destruct (-1 <? find rimage "-R")%Z eqn:E1.
    { injection Hm as <-. left. split; [now apply find_occurs|reflexivity]. }
    destruct (-1 <? find rimage "-r")%Z eqn:E2.
    { injection Hm as <-. right; left.
      split; [intros Ho; apply occurs_find in Ho; [congruence|discriminate]|].
      split; [now apply find_occurs|reflexivity]. }
    destruct (-1 <? find rimage "_R")%Z eqn:E3; [|discriminate].
    injection Hm as <-. right; right.
    split; [intros Ho; apply occurs_find in Ho; [congruence|discriminate]|].
    split; [intros Ho; apply occurs_find in Ho; [congruence|discriminate]|].
    split; [now apply find_occurs|reflexivity].
  - destruct (split_head_spec rimage m) as [Hs | [Hs Hno]]; [now left|right].
    split; [exact Hs|]. apply Hno.
    unfold marker_of in Hm.
    repeat match type of Hm with
    | (if ?b then _ else _) = _ => destruct b
    end; try discriminate; injection Hm as <-; discriminate.
Qed.

(** X17: a '-r' image keeps its whole file name as root name.  For a name
    with '-r' and no '-R', [__init__] splits at '_r.fits' (underscore), so
    unless the name holds '_r.fits' as well the root name is the whole file
    name, '.fits' included. *)
Theorem init_lowercase_r_keeps_name rimage w w' :
  __init__ rimage w = (Ret tt, w') ->
  ~ occurs "-R" rimage -> occurs "-r" rimage -> ~ occurs "_r.fits" rimage ->
  rootname (names (w_self w')) = rimage.
Proof.
  intros Hr H1 H2 H3. apply init_ret in Hr as (wc & m & _ & Hm & ->). cbn.
  unfold marker_of in Hm.
  rewrite (not_occurs_find _ _ H1), (occurs_find _ _ H2) in Hm by discriminate.
  injection Hm as <-.
  destruct (split_head_spec rimage "_r.fits") as [[tail Hs] | [Hs _]]; [|exact Hs].
  exfalso. apply H3. unfold split_head in Hs.
  destruct (String.index 0 "_r.fits" rimage) as [n|] eqn:E.
  - exists n. now apply index_correct1 in E.
  - exfalso. clear -Hs.
    assert (Hl : String.length rimage = String.length (rimage +:+ "_r.fits" +:+ tail))
      by (now rewrite <- Hs).
    rewrite !string_length_app in Hl. cbn in Hl. lia.
Qed.

End init_more.

(** ** The GALEX cutout *)

Section galex_more.
Import cutouts.

Lemma split_char_nonempty c s : split_char c s <> [].
Proof.
  destruct s as [|a s]; cbn; [discriminate|].
  destruct (Ascii.eqb a c); [discriminate|].
  destruct (split_char c s); discriminate.
Qed.

Lemma split_char_no_sep c s :
  ~ In c (list_ascii_of_string s) -> split_char c s = [s].
Proof.
  induction s as [|a s IH]; cbn; [reflexivity|].
  intros Hn. destruct (Ascii.eqb a c) eqn:E.
  - apply Ascii.eqb_eq in E. tauto.
  - rewrite IH by tauto. reflexivity.
Qed.

Lemma split_char_sep c s :
  In c (list_ascii_of_string s) -> (2 <= length (split_char c s))%nat.
Proof.
  induction s as [|a s IH]; cbn; [tauto|].
  intros Hin. destruct (Ascii.eqb a c) eqn:E.
  - cbn. pose proof (split_char_nonempty c s).
    destruct (split_char c s); [congruence|cbn; lia].
  - destruct Hin as [->|Hin]; [rewrite Ascii.eqb_refl in E; discriminate|].
    specialize (IH Hin). destruct (split_char c s); cbn in *; lia.
Qed.

Lemma join_split c s : join_char c (split_char c s) = s.
Proof.
  induction s as [|a s IH]; [reflexivity|]. cbn [split_char].
  destruct (Ascii.eqb a c) eqn:E.
  - apply Ascii.eqb_eq in E. subst a.
    pose proof (split_char_nonempty c s).
    destruct (split_char c s) as [|h t] eqn:Es; [congruence|].
    cbn [join_char]. cbn [join_char] in IH.
    change ("" +:+ String c (join_char c (h :: t))) with (String c (join_char c (h :: t))).
    cbn [join_char]. now rewrite IH.
  - pose proof (split_char_nonempty c s).
    destruct (split_char c s) as [|h t] eqn:Es; [congruence|].
    cbn [join_char] in *. destruct t.
    + now rewrite IH.
    + change (String a h +:+ String c (join_char c (s0 :: t)))
        with (String a (h +:+ String c (join_char c (s0 :: t)))).
      now rewrite IH.
Qed.

Context `{Mast}.

Lemma galex_needs_dash w g :
  galid (w_self w) = HStr g ->
  ~ In "-"%char (list_ascii_of_string (rootname (names (w_self w)))) ->
  get_galex_image_method w = (Exc (PyError "IndexError"), w).
Proof.
  intros Hg Hn. unfold get_galex_image_method, bind, get, ret, raise, lift_opt.
  rewrite Hg, (split_char_no_sep _ _ Hn). reflexivity.
Qed.

End galex_more.

Section galex_cache.
Import cutouts.


End galex_cache.

Section galex_init.
Import cutouts.
Context `{Services} `{Mast}.

Lemma list_ascii_app a b :
  list_ascii_of_string (a +:+ b) = (list_ascii_of_string a ++ list_ascii_of_string b)%list.
Proof.
  induction a as [|c a IH]; [reflexivity|].
  change (String c a +:+ b) with (String c (a +:+ b)). cbn. now rewrite IH.
Qed.

(** X19: an image name without a hyphen cannot get its GALEX cutout.  The
    file name of the cutout uses [rootname.split('-')[1]].  For an object
    made by [cutouts.__init__] from an image name with no '-' (such as
    'x_R.fits'), whenever the galaxy id is a string [get_galex_image] raises
    IndexError, and changes nothing. *)
Theorem galex_needs_hyphen_in_image_name rimage w w1 w2 g :
  __init__ rimage w = (Ret tt, w1) ->
  ~ In "-"%char (list_ascii_of_string rimage) ->
  names (w_self w2) = names (w_self w1) ->
  galid (w_self w2) = HStr g ->
  get_galex_image_method w2 = (Exc (PyError "IndexError"), w2).
Proof.
  intros Hi Hn Hnm Hg. apply (galex_needs_dash _ _ Hg).
  rewrite Hnm. apply init_ret in Hi as (wc & m & _ & _ & ->). cbn.
  destruct (split_head_spec rimage m) as [[tail Hs] | [Hs _]].
  - intros Hin. apply Hn. rewrite Hs, list_ascii_app. apply in_or_app. now left.
  - now rewrite Hs.
Qed.

End galex_init.

(** ** The first stages of [runall] *)

Section halpha_chain.
Import cutouts.
Context `{Services}.

(** X20: what the first four stages of [runall] take from the R image.
    When [get_halpha_cutouts], [get_image_size], [get_RADEC] and [get_galid]
    return in a row: the R image and its '-Ha.fits' and '-CS.fits' companions
    exist; [xsize_pix] is the number of rows of the R image and [ysize_pix]
    the length of its rows; both sizes in arcsec are the pixel counts times
    |CD1_1| times 3600 and are not negative; (ra, dec) is the world position
    of the pixel (xsize_pix/2, ysize_pix/2); the galaxy id is the header's
    ID; nothing has been written or downloaded. *)
Theorem first_stages_measure_r_image w w1 w2 w3 w4 :
  get_halpha_cutouts w = (Ret tt, w1) ->
  get_image_size w1 = (Ret tt, w2) ->
  get_RADEC w2 = (Ret tt, w3) ->
  get_galid w3 = (Ret tt, w4) ->
  exists im hd row0 cd c id,
    w_disk w !! r_name (names (w_self w)) = Some (FitsFile (Some im) hd) /\
    is_Some (w_disk w !! (rootname (names (w_self w)) +:+ "-Ha.fits")) /\
    is_Some (w_disk w !! (rootname (names (w_self w)) +:+ "-CS.fits")) /\
    im !! 0%nat = Some row0 /\
    hd !! "CD1_1" = Some cd /\ float_of_hval cd = Some c /\
    hd !! "ID" = Some id /\
    xsize_pix (size (w_self w4)) = length im /\
    ysize_pix (size (w_self w4)) = length row0 /\
    xsize_arcsec (size (w_self w4)) == inject_Z (Z.of_nat (length im)) * Qabs c * 3600 /\
    ysize_arcsec (size (w_self w4)) == inject_Z (Z.of_nat (length row0)) * Qabs c * 3600 /\
    0 <= xsize_arcsec (size (w_self w4)) /\
    (ra (w_self w4), dec (w_self w4)) =
      wcs_pix2world (wcs (w_self w))
        (inject_Z (Z.of_nat (length im)) / 2) (inject_Z (Z.of_nat (length row0)) / 2) /\
    galid (w_self w4) = id /\
    w_disk w4 = w_disk w /\ w_downloads w4 = w_downloads w.
Proof.
  unfold get_halpha_cutouts, bind, get, fits_getdata, modify, ret, raise.
  destruct (w_disk w !! r_name (names (w_self w))) as [[[im|] hd|raw]|] eqn:Hr;
    try discriminate.
  destruct (w_disk w !! (rootname (names (w_self w)) +:+ "-Ha.fits"))
    as [[[imh|] hdh|rawh]|] eqn:Hh; try discriminate.
  destruct (w_disk w !! (rootname (names (w_self w)) +:+ "-CS.fits"))
    as [[[imc|] hdc|rawc]|] eqn:Hc; try discriminate.
  cbn [fst snd]. intros [= <-].
  unfold get_image_size, bind, get, lift_opt, modify, ret, raise.
  cbn [w_self set_self halpha with_halpha r header].
  destruct (im !! 0%nat) as [row0|] eqn:H0; [|discriminate].
  destruct (hd !! "CD1_1") as [cd|] eqn:Hcd; [|discriminate].
  destruct (float_of_hval cd) as [c|] eqn:Hfc; [|discriminate].
  intros [= <-].
  unfold get_RADEC, bind, get, modify, ret.
  intros [= <-].
  unfold get_galid, bind, get, lift_opt, modify, ret, raise.
  cbn [w_self set_self halpha with_halpha with_size with_radec header].
  destruct (hd !! "ID") as [id|] eqn:Hid; [|discriminate].
  intros [= <-]. cbn.
  exists im, hd, row0, cd, c, id.
  repeat split; eauto; try apply Qeq_refl.
  - apply Qmult_le_0_compat; [|discriminate].
    apply Qmult_le_0_compat; [|apply Qabs_nonneg].
    change 0 with (inject_Z 0). rewrite <- Zle_Qle. lia.
  - now destruct (wcs_pix2world _ _ _).
Qed.

End halpha_chain.

(** ** The further properties on the examples *)

Module more_witnesses.
Import getzp examples.


Lemma runse_needs_known_instrument_witness :
  fst (runse unknown_world) = Exc (PyError "UnboundLocalError").
Proof.
  destruct (@runse_needs_known_instrument flat_sky unknown_world
              (fst (runse unknown_world)) (snd (runse unknown_world)))
    as (_ & _ & Hu).
  - now destruct (runse unknown_world).
  - discriminate.
  - discriminate.
  - discriminate.
  - apply (Hu (Some [[1; 2]; [3; 4]]) test_header (HFloat 1) 1);
      [vm_compute; reflexivity | reflexivity | reflexivity | discriminate].
Defined.

Lemma matchflag_means_within_5_arcsec_witness :
  exists row,
    matchedarray1 (mt field_matched) !! 0%nat = Some row /\
    In row (secat (se field_obj)) /\
    separation (150.01, 2.01) (ALPHA_J2000 row, DELTA_J2000 row) < 5 / 3600.
Proof.
  destruct (@matchflag_means_within_5_arcsec flat_sky field_obj field_matched
              0%nat (ps1 150.01 2.01 15))
    as [(_ & row & H1 & H2 & H3 & _) | (Hf & _)].
  - vm_compute; reflexivity.
  - reflexivity.
  - exists row. repeat split; assumption.
  - vm_compute in Hf. discriminate Hf.
Defined.

Lemma fitflag_means_witness :
  matchflag (mt field_matched) !! 0%nat = Some true /\
  exists p row,
    pan field_obj !! 0%nat = Some p /\
    matchedarray1 (mt field_matched) !! 0%nat = Some row /\
    9 < rmag p /\ 0.95 < CLASS_STAR row.
Proof.
  destruct (@fitflag_means flat_sky field_obj field_matched 0%nat)
    as (Hm & p & row & Hp & Hrow & Hr & _ & _ & Hc & _).
  - vm_compute; reflexivity.
  - reflexivity.
  - split; [exact Hm|]. exists p, row. repeat split; assumption.
Defined.

Lemma match_coords_after_runse_witness :
  exists self',
    match_coords (w_self (snd (get_panstarrs (snd (runse test_world)))))
      = (Ret tt, self').
Proof.
  apply (@match_coords_after_runse flat_sky test_world (snd (runse test_world))).
  - vm_compute; reflexivity.
  - vm_compute; reflexivity.
Defined.

Lemma fitzp_keeps_two_points_witness :
  exists s',
    fitzp 5 field_matched = Some (Ret tt, s') /\
    (2 <= length (self_x (fit s')))%nat /\
    length (self_y (fit s')) = length (self_x (fit s')).
Proof.
  destruct (fitzp 5 field_matched) as [[r s']|] eqn:E;
    [|vm_compute in E; discriminate].
  assert (Hr : r = Ret tt)
    by (apply (f_equal (fun o => match o with Some (r0, _) => r0 | None => r end))
          in E; rewrite <- E; vm_compute; reflexivity).
  subst r. exists s'. split; [reflexivity|].
  destruct (@fitzp_keeps_two_points wls_scipy 5 field_matched s' 5)
    as (H2 & Hy & _); try reflexivity; [exact E|].
  split; assumption.
Defined.

Lemma degenerate_pass_exits_witness :
  fst (loop_body perfect_locals (set_bestc [1; 0] (blank_obj test_cfg)))
    = Exc SystemExit.
Proof.
  rewrite (@degenerate_pass_exits wls_scipy perfect_locals
             (set_bestc [1; 0] (blank_obj test_cfg))
             {| popt := -25; pcov := 0 |} 0).
  - reflexivity.
  - vm_compute; reflexivity.
  - reflexivity.
  - right. vm_compute; reflexivity.
Defined.

Lemma fitzp_frame_witness :
  exists r s',
    fitzp 5 field_matched = Some (r, s') /\
    mt s' = mt field_matched /\ pan s' = pan field_matched.
Proof.
  destruct (fitzp 5 field_matched) as [[r s']|] eqn:E;
    [|vm_compute in E; discriminate].
  exists r, s'. split; [reflexivity|].
  destruct (@fitzp_frame wls_scipy 5 field_matched r s' E) as (_ & _ & Hp & Hm).
  split; assumption.
Defined.

Lemma update_header_idempotent_witness :
  update_header (snd (update_header fitted_world))
    = (Ret tt, snd (update_header fitted_world)).
Proof.
  apply (proj1 (update_header_idempotent fitted_world (Ret tt)
                  (snd (update_header fitted_world))
                  ltac:(vm_compute; reflexivity))).
  reflexivity.
Defined.




End more_witnesses.

Module more_cutout_witnesses.
Import cutouts examples.

Lemma legacy_touches_only_its_files_witness :
  w_disk (snd (@get_legacy_images in_footprint 208.1 40.3 "VFID0001" 1 72 "g"
                 false cutout_world)) !! "v17p01-VFID0001-R.fits"
    = w_disk cutout_world !! "v17p01-VFID0001-R.fits".
Proof.
  destruct (@legacy_touches_only_its_files in_footprint 208.1 40.3 "VFID0001" 1
              72 "g" false cutout_world
              (fst (@get_legacy_images in_footprint 208.1 40.3 "VFID0001" 1 72
                      "g" false cutout_world))
              (snd (@get_legacy_images in_footprint 208.1 40.3 "VFID0001" 1 72
                      "g" false cutout_world)))
    as (_ & _ & _ & Hother).
  - now destruct (@get_legacy_images in_footprint 208.1 40.3 "VFID0001" 1 72
                    "g" false cutout_world).
  - apply Hother; intros Hq; vm_compute in Hq; discriminate Hq.
Defined.

Lemma legacy_cache_ignores_position_witness :
  @get_legacy_images in_footprint 208.1 40.3 "VFID0001" 1 72 "g" false
    (snd (@get_legacy_images in_footprint 208.1 40.3 "VFID0001" 1 72 "g" false
            cutout_world))
  = @get_legacy_images in_footprint 0 0 "VFID0001" 2 72 "g" false
      (snd (@get_legacy_images in_footprint 208.1 40.3 "VFID0001" 1 72 "g" false
              cutout_world)).
Proof.
  apply (@legacy_cache_ignores_position in_footprint).
  - vm_compute. eauto.
  - vm_compute. eauto.
Defined.

Lemma load_after_download_witness :
  exists w2,
    @load_legacy_images (snd (@download_legacy in_footprint measured_world))
      = (Ret tt, w2) /\
    w_downloads w2 = w_downloads (snd (@download_legacy in_footprint measured_world)).
Proof.
  destruct (@load_after_download in_footprint measured_world
              (snd (@download_legacy in_footprint measured_world)))
    as (w2 & Hload & _ & Hdl).
  - vm_compute; reflexivity.
  - exists w2. split; assumption.
Defined.

Lemma init_rootname_witness :
  r_name (names (w_self ready_world)) = "v17p01-VFID0001-R.fits"%string /\
  w_disk ready_world = w_disk cutout_world.
Proof.
  destruct (@init_rootname in_footprint "v17p01-VFID0001-R.fits" cutout_world
              ready_world) as (Hn & Hd & _).
  - vm_compute; reflexivity.
  - split; assumption.
Defined.

Lemma init_lowercase_r_keeps_name_witness :
  rootname (names (w_self (snd (@__init__ in_footprint "VFID0001-r.fits"
                                  more_cutout_world))))
    = "VFID0001-r.fits"%string.
Proof.
  apply (@init_lowercase_r_keeps_name in_footprint "VFID0001-r.fits"
           more_cutout_world).
  - vm_compute; reflexivity.
  - intros [n Hn].
    exact (index_correct3 0 n "-R" "VFID0001-r.fits" eq_refl
             ltac:(discriminate) (Nat.le_0_l n) Hn).
  - exists 8%nat. reflexivity.
  - intros [n Hn].
    exact (index_correct3 0 n "_r.fits" "VFID0001-r.fits" eq_refl
             ltac:(discriminate) (Nat.le_0_l n) Hn).
Defined.


Lemma galex_needs_hyphen_in_image_name_witness :
  @get_galex_image_method mast_up underscore_world
  = (Exc (PyError "IndexError"), underscore_world).
Proof.
  apply (@galex_needs_hyphen_in_image_name in_footprint mast_up "ngc4254_R.fits"
           more_cutout_world
           (snd (@__init__ in_footprint "ngc4254_R.fits" more_cutout_world))
           underscore_world "VFID0001").
  - vm_compute; reflexivity.
  - cbn. intuition discriminate.
  - reflexivity.
  - reflexivity.
Defined.

Lemma first_stages_measure_r_image_witness :
  xsize_pix (size (w_self measured_world)) = 2%nat /\
  xsize_arcsec (size (w_self measured_world)) == 72 /\
  galid (w_self measured_world) = HStr "VFID0001" /\
  w_disk measured_world = w_disk ready_world.
Proof.
  destruct (@first_stages_measure_r_image in_footprint ready_world loaded_world
              sized_world placed_world measured_world)
    as (im & hd & row0 & cd & c & id & Hr & _ & _ & _ & _ & _ & Hid & Hx & _ &
        Hxa & _ & _ & _ & Hg & Hd & _).
  - vm_compute; reflexivity.
  - vm_compute; reflexivity.
  - vm_compute; reflexivity.
  - vm_compute; reflexivity.
  - assert (Him : im = [[1; 2]; [3; 4]] /\ hd = r_header).
    { change (w_disk ready_world !! r_name (names (w_self ready_world)))
        with (Some (FitsFile (Some [[1; 2]; [3; 4]]) r_header)) in Hr.
      injection Hr as <- <-. split; reflexivity. }
    destruct Him as [-> ->].
    split; [exact Hx|].
    split; [vm_compute; reflexivity|].
    split; [|exact Hd].
    rewrite Hg. change (r_header !! "ID") with (Some (HStr "VFID0001")) in Hid.
    now injection Hid as <-.
Defined.

End more_cutout_witnesses.
